(** * Verification of the gaze-tracking overlay and the e-mail obfuscation

    Shallow embedding of
    - [src/components/FaceLooker.tsx] (sprite-grid quantisation, idle timer),
    - [src/components/EmailLink.tsx] (click-handler decryption),
    - [scripts/obfuscate-email.mjs] (generator of the obfuscated props).
*)

From Stdlib Require Import ZArith QArith Qround List Bool Lia Lqa.
Import ListNotations.

Set Implicit Arguments.

(* ================================================================= *)
(** * JavaScript numbers *)

(** A JavaScript [number] is carried as an extended rational: a finite value,
    one of the two infinities, or NaN.  The special values follow IEEE 754 as
    JavaScript exposes them (NaN is absorbing, [1/0] is [Infinity], [0/0] is
    NaN, [Math.max]/[Math.min] return NaN as soon as one argument is NaN).
    Finite arithmetic is exact: the binary64 rounding of finite results is not
    part of the model, and there is a single zero, which divides like [+0]
    (the only zero denominators met in the component are [rect.width / 2] and
    [rect.height / 2] of an empty box, both [+0]). *)
Module JSNum.

Inductive num : Type :=
| Fin (q : Q)
| PInf
| NInf
| NaN.

(** Equality of values; finite values are compared as rationals. *)
Definition num_eq (a b : num) : Prop :=
  match a, b with
  | Fin p, Fin q => p == q
  | PInf, PInf => True
  | NInf, NInf => True
  | NaN, NaN => True
  | _, _ => False
  end.

Definition isNaN (a : num) : bool :=
  match a with NaN => true | _ => false end.

(** The infinity carrying the sign given by a comparison with zero; the
    indeterminate forms ([0 * Infinity], [0 / 0]) give NaN. *)
Definition signed_inf (c : comparison) : num :=
  match c with
  | Gt => PInf
  | Lt => NInf
  | Eq => NaN
  end.

(** Unary minus. *)
Definition neg (a : num) : num :=
  match a with
  | Fin q => Fin (- q)
  | PInf => NInf
  | NInf => PInf
  | NaN => NaN
  end.

(** [a + b] *)
Definition add (a b : num) : num :=
  match a, b with
  | NaN, _ | _, NaN => NaN
  | Fin p, Fin q => Fin (p + q)
  | PInf, NInf | NInf, PInf => NaN
  | PInf, _ | _, PInf => PInf
  | NInf, _ | _, NInf => NInf
  end.

(** [a - b] *)
Definition sub (a b : num) : num := add a (neg b).

(** [a * b] *)
Definition mul (a b : num) : num :=
  match a, b with
  | NaN, _ | _, NaN => NaN
  | Fin p, Fin q => Fin (p * q)
  | Fin p, PInf | PInf, Fin p => signed_inf (p ?= 0)
  | Fin p, NInf | NInf, Fin p => signed_inf (0 ?= p)
  | PInf, PInf | NInf, NInf => PInf
  | PInf, NInf | NInf, PInf => NInf
  end.

(** [a / b] *)
Definition div (a b : num) : num :=
  match a, b with
  | NaN, _ | _, NaN => NaN
  | Fin p, Fin q =>
      if Qeq_bool q 0 then signed_inf (p ?= 0) else Fin (p / q)
  | Fin _, PInf | Fin _, NInf => Fin 0
  | PInf, Fin q => match q ?= 0 with Lt => NInf | _ => PInf end
  | NInf, Fin q => match q ?= 0 with Lt => PInf | _ => NInf end
  | _, _ => NaN
  end.

(** [Math.round]: the nearest integer, ties towards [+Infinity]. *)
Definition round (a : num) : num :=
  match a with
  | Fin q => Fin (inject_Z (Qfloor (q + (1 # 2))))
  | _ => a
  end.

(** [a <= b]; false as soon as one side is NaN. *)
Definition leb (a b : num) : bool :=
  match a, b with
  | NaN, _ | _, NaN => false
  | NInf, _ => true
  | _, PInf => true
  | Fin p, Fin q => Qle_bool p q
  | _, _ => false
  end.

(** [Math.max(a, b)] *)
Definition max (a b : num) : num :=
  match a, b with
  | NaN, _ | _, NaN => NaN
  | _, _ => if leb a b then b else a
  end.

(** [Math.min(a, b)] *)
Definition min (a b : num) : num :=
  match a, b with
  | NaN, _ | _, NaN => NaN
  | _, _ => if leb a b then a else b
  end.

(** [a === b] on numbers: NaN is different from everything, itself included. *)
Definition strict_eq (a b : num) : bool :=
  match a, b with
  | Fin p, Fin q => Qeq_bool p q
  | PInf, PInf => true
  | NInf, NInf => true
  | _, _ => false
  end.

End JSNum.

Import JSNum.

Declare Scope num_scope.
Delimit Scope num_scope with num.
Infix "=n=" := num_eq (at level 70, no associativity) : num_scope.
Local Open Scope num_scope.

(* ================================================================= *)
(** * FaceLooker.tsx *)

Module FaceLooker.

(** The numeric props of the component (finite numbers), and whether each of
    the two optional handlers was supplied. *)
Record Props : Type := mkProps {
  spriteWidth : Q;
  gridSize : Q;
  minValue : Q;
  maxValue : Q;
  step : Q;
  onCenter : bool;
  onLooking : bool
}.

(** [gridSize = 11, minValue = -15, maxValue = 15, step = 3]; both handlers
    supplied, as [Avatar.tsx] does. *)
Definition defaults (spriteWidth : Q) : Props :=
  mkProps spriteWidth 11 (-15) 15 3 true true.

(** Result of [getBackgroundPosition]. *)
Record Position : Type := mkPosition {
  pos_x : num;
  pos_y : num;
  pos_col : num;
  pos_row : num
}.

(** [DOMRect] of the tracking region, as [getBoundingClientRect] returns it. *)
Record Rect : Type := mkRect {
  left : Q;
  top : Q;
  width : Q;
  height : Q
}.

(** The two handlers a parent can be notified through. *)
Inductive Callback : Type :=
| OnCenter
| OnLooking.

(** Component state: the three [useState] cells, the two refs, and the part
    of the host's timer table that belongs to the component ([pending]: the
    timers set by the component that have neither fired nor been cleared;
    each of them carries [fadeToCenter]). *)
Record State : Type := mkState {
  backgroundPosition : num * num;
  gridPosition : num * num;
  currentPupil : num * num;
  containerRef : option Rect;
  idleTimerRef : option nat;
  pending : list nat;
  nextTimer : nat
}.

(** Events the host delivers to the mounted component.  [Layout] is the host
    attaching, detaching or resizing the tracking region; [TimerFire id] is
    the expiry of timer [id].  Durations are not part of the model: a timer
    that is pending may expire at any point of the event sequence. *)
Inductive Event : Type :=
| MouseMove (clientX clientY : num)
| TouchMove (touches : list (num * num))
| TouchEnd
| TimerFire (id : nat)
| Layout (c : option Rect).

(** Handlers run in a state monad that also logs the handler invocations. *)
Definition M (A : Type) : Type := State -> A * State * list Callback.

Definition ret {A} (a : A) : M A := fun s => (a, s, []).

Definition bind {A B} (m : M A) (k : A -> M B) : M B :=
  fun s =>
    let '(a, s1, l1) := m s in
    let '(b, s2, l2) := k a s1 in
    (b, s2, l1 ++ l2).

Notation "x <- m ;; k" := (bind m (fun x => k))
  (at level 61, m at next level, right associativity).
Notation "m ;; k" := (bind m (fun _ => k))
  (at level 61, right associativity).

Definition get : M State := fun s => (s, s, []).
Definition put (s : State) : M unit := fun _ => (tt, s, []).
Definition invoke (c : Callback) : M unit := fun s => (tt, s, [c]).

(** [handler?.()] *)
Definition invokeOpt (supplied : bool) (c : Callback) : M unit :=
  if supplied then invoke c else ret tt.

Definition setCurrentPupil (v : num * num) : M unit :=
  s <- get ;;
  put (mkState (backgroundPosition s) (gridPosition s) v (containerRef s)
               (idleTimerRef s) (pending s) (nextTimer s)).

Definition setBackgroundPosition (v : num * num) : M unit :=
  s <- get ;;
  put (mkState v (gridPosition s) (currentPupil s) (containerRef s)
               (idleTimerRef s) (pending s) (nextTimer s)).

Definition setGridPosition (v : num * num) : M unit :=
  s <- get ;;
  put (mkState (backgroundPosition s) v (currentPupil s) (containerRef s)
               (idleTimerRef s) (pending s) (nextTimer s)).

Definition setContainerRef (c : option Rect) : M unit :=
  s <- get ;;
  put (mkState (backgroundPosition s) (gridPosition s) (currentPupil s) c
               (idleTimerRef s) (pending s) (nextTimer s)).

Definition setIdleTimerRef (r : option nat) : M unit :=
  s <- get ;;
  put (mkState (backgroundPosition s) (gridPosition s) (currentPupil s)
               (containerRef s) r (pending s) (nextTimer s)).

(** [clearTimeout(id)]: unknown or expired ids are ignored. *)
Definition clearTimeout (id : nat) : M unit :=
  s <- get ;;
  put (mkState (backgroundPosition s) (gridPosition s) (currentPupil s)
               (containerRef s) (idleTimerRef s)
               (remove Nat.eq_dec id (pending s)) (nextTimer s)).

(** [setTimeout(() => fadeToCenter(), idleTimeout)]: a fresh id. *)
Definition setTimeout : M nat :=
  s <- get ;;
  put (mkState (backgroundPosition s) (gridPosition s) (currentPupil s)
               (containerRef s) (idleTimerRef s)
               (nextTimer s :: pending s) (S (nextTimer s))) ;;
  ret (nextTimer s).

Section Component.

Variable p : Props.

(** Lines 69-91. *)
Definition getBackgroundPosition (pupilX pupilY : num) : Position :=
  let colIndex := round (div (sub pupilX (Fin (minValue p))) (Fin (step p))) in
  let rowIndex := round (div (sub pupilY (Fin (minValue p))) (Fin (step p))) in
  let clampedCol := max (Fin 0) (min (sub (Fin (gridSize p)) (Fin 1)) colIndex) in
  let clampedRow := max (Fin 0) (min (sub (Fin (gridSize p)) (Fin 1)) rowIndex) in
  let actualCellSize := div (Fin (spriteWidth p)) (Fin (gridSize p)) in
  let xOffset := neg (mul clampedCol actualCellSize) in
  let yOffset := neg (mul clampedRow actualCellSize) in
  mkPosition xOffset yOffset clampedCol clampedRow.

(** Lines 94-96. *)
Definition clamp (value lo hi : num) : num := max lo (min hi value).

(** Lines 99-106. *)
Definition quantizeToGrid (val : num) : num :=
  let raw :=
    add (Fin (minValue p))
        (div (mul (add val (Fin 1)) (sub (Fin (maxValue p)) (Fin (minValue p))))
             (Fin 2)) in
  let snapped := mul (round (div raw (Fin (step p)))) (Fin (step p)) in
  clamp snapped (Fin (minValue p)) (Fin (maxValue p)).


(** Line 220. *)
Definition actualCellSize : num := div (Fin (spriteWidth p)) (Fin (gridSize p)).

(** Lines 109-133. *)
Definition updatePupilPosition (pupilX pupilY : num) (triggerCallback : bool)
  : M unit :=
  setCurrentPupil (pupilX, pupilY) ;;
  let pos := getBackgroundPosition pupilX pupilY in
  setBackgroundPosition (pos_x pos, pos_y pos) ;;
  setGridPosition (pos_col pos, pos_row pos) ;;
  if triggerCallback then
    if strict_eq pupilX (Fin 0) && strict_eq pupilY (Fin 0)
    then invokeOpt (onCenter p) OnCenter
    else invokeOpt (onLooking p) OnLooking
  else ret tt.

(** Lines 136-138. *)
Definition fadeToCenter : M unit := invokeOpt (onCenter p) OnCenter.

(** Lines 163-171 and 195-200: clear the timer the ref names, set a new one. *)
Definition restartIdleTimer : M unit :=
  s <- get ;;
  match idleTimerRef s with
  | Some id => clearTimeout id
  | None => ret tt
  end ;;
  id <- setTimeout ;;
  setIdleTimerRef (Some id).

(** Lines 145-155 of [handlePointerMove]: the normalised pointer
    coordinates, clamped; the Y axis is inverted. *)
Definition clampedPointer (rect : Rect) (clientX clientY : num) : num * num :=
  let centerX := add (Fin (left rect)) (div (Fin (width rect)) (Fin 2)) in
  let centerY := add (Fin (top rect)) (div (Fin (height rect)) (Fin 2)) in
  let nx := div (sub clientX centerX) (div (Fin (width rect)) (Fin 2)) in
  let ny := div (sub centerY clientY) (div (Fin (height rect)) (Fin 2)) in
  let clampedX := clamp nx (Fin (-1)) (Fin 1) in
  let clampedY := clamp ny (Fin (-1)) (Fin 1) in
  (clampedX, clampedY).

(** Lines 141-174. *)
Definition handlePointerMove (clientX clientY : num) : M unit :=
  s <- get ;;
  match containerRef s with
  | None => ret tt
  | Some rect =>
      let '(clampedX, clampedY) := clampedPointer rect clientX clientY in
      let pupilX := quantizeToGrid clampedX in
      let pupilY := quantizeToGrid clampedY in
      updatePupilPosition pupilX pupilY true ;;
      restartIdleTimer
  end.

(** Lines 181-183. *)
Definition handleMouseMove (clientX clientY : num) : M unit :=
  handlePointerMove clientX clientY.

(** Lines 186-191. *)
Definition handleTouchMove (touches : list (num * num)) : M unit :=
  match touches with
  | touch :: _ => handlePointerMove (fst touch) (snd touch)
  | [] => ret tt
  end.

(** Lines 194-201. *)
Definition handleTouchEnd : M unit := restartIdleTimer.

(** Expiry of a timer: only a pending timer can fire, and it fires once. *)
Definition timerFire (id : nat) : M unit :=
  s <- get ;;
  if in_dec Nat.eq_dec id (pending s)
  then clearTimeout id ;; fadeToCenter
  else ret tt.

Definition handle (e : Event) : M unit :=
  match e with
  | MouseMove x y => handleMouseMove x y
  | TouchMove ts => handleTouchMove ts
  | TouchEnd => handleTouchEnd
  | TimerFire id => timerFire id
  | Layout c => setContainerRef c
  end.

(** One event: the next state and the handler invocations it caused. *)
Definition dispatch (s : State) (e : Event) : State * list Callback :=
  let '(_, s', l) := handle e s in (s', l).

(** A sequence of events, with the invocations in order. *)
Fixpoint run (s : State) (es : list Event) : State * list Callback :=
  match es with
  | [] => (s, [])
  | e :: es' =>
      let '(s1, l1) := dispatch s e in
      let '(s2, l2) := run s1 es' in
      (s2, l1 ++ l2)
  end.

(** The [useState]/[useRef] initial values (lines 62-66); the container ref
    is attached by the first render. *)
Definition initialState (c : option Rect) : State :=
  mkState (Fin 0, Fin 0) (Fin 0, Fin 0) (Fin 0, Fin 0) c None [] 0.

(** Mounting: the effect body at line 178, [updatePupilPosition(0, 0, false)],
    run on the initial state. *)
Definition mount (c : option Rect) : State * list Callback :=
  let '(_, s, l) := updatePupilPosition (Fin 0) (Fin 0) false (initialState c) in
  (s, l).

End Component.

End FaceLooker.

Import FaceLooker.

(* ================================================================= *)
(** * EmailLink.tsx and scripts/obfuscate-email.mjs *)

Module Obfuscation.

Local Open Scope Z_scope.

(** A JavaScript string: its UTF-16 code units, each in [[0, 65535]]. *)
Definition jsstring : Type := list Z.

(** [String.fromCharCode(n)] keeps the low 16 bits of [n]. *)
Definition fromCharCode (n : Z) : Z := n mod 65536.

(** [s.charCodeAt(i)]; [None] stands for NaN (index out of range). *)
Definition charCodeAt (s : jsstring) (i : Z) : option Z :=
  if i <? 0 then None else nth_error s (Z.to_nat i).

(** ToInt32, applied by [^] to both operands; NaN becomes 0. *)
Definition toInt32 (x : option Z) : Z :=
  match x with
  | None => 0
  | Some n => (n + 2 ^ 31) mod 2 ^ 32 - 2 ^ 31
  end.

(** [a ^ b] *)
Definition bitxor (a b : option Z) : Z := Z.lxor (toInt32 a) (toInt32 b).

(** [i % len] used as a string position: [i % 0] is NaN, which [charCodeAt]
    reads as position 0. *)
Definition keyIndex (i len : Z) : Z :=
  if len =? 0 then 0 else Z.rem i len.

(** The callback given to [str.replace(/[a-zA-Z]/g, ...)], applied to the
    code units the pattern matches and to no other. *)
Definition rot13_char (code : Z) : Z :=
  let isUpperCase := (65 <=? code) && (code <=? 90) in
  let isLowerCase := (97 <=? code) && (code <=? 122) in
  if isUpperCase || isLowerCase then
    let base := if isUpperCase then 65 else 97 in
    fromCharCode ((code - base + 13) mod 26 + base)
  else code.

(** [rot13], the same function in both files. *)
Definition rot13 (str : jsstring) : jsstring := map rot13_char str.

(** The XOR loop of both files, from position [i] on: each code unit of
    [text] is combined with [key.charCodeAt(i % key.length)]. *)
Fixpoint xorLoop (key : jsstring) (i : Z) (text : jsstring) : jsstring :=
  match text with
  | [] => []
  | ch :: rest =>
      let keyChar := charCodeAt key (keyIndex i (Zlength key)) in
      fromCharCode (bitxor (Some ch) keyChar) :: xorLoop key (i + 1) rest
  end.

(** ** Base64 (host functions) *)

(** [Buffer.from(s, 'binary')]: one byte per code unit, its low 8 bits. *)
Definition latin1 (s : jsstring) : list Z := map (fun c => Z.land c 255) s.

(** The Base64 alphabet, RFC 4648 table 1. *)
Definition b64char (v : Z) : Z :=
  if v <? 26 then 65 + v
  else if v <? 52 then 97 + (v - 26)
  else if v <? 62 then 48 + (v - 52)
  else if v =? 62 then 43
  else 47.

Definition b64val (c : Z) : option Z :=
  if (65 <=? c) && (c <=? 90) then Some (c - 65)
  else if (97 <=? c) && (c <=? 122) then Some (c - 97 + 26)
  else if (48 <=? c) && (c <=? 57) then Some (c - 48 + 52)
  else if c =? 43 then Some 62
  else if c =? 47 then Some 63
  else None.

(** The 6-bit groups of a byte sequence: 24 bits at a time, a final group of
    8 or 16 bits being filled up with zero bits. *)
Fixpoint toSextets (bs : list Z) : list Z :=
  match bs with
  | [] => []
  | [a] =>
      let n := a * 16 in
      [n / 64; n mod 64]
  | [a; b] =>
      let n := (a * 256 + b) * 4 in
      [n / 4096; n / 64 mod 64; n mod 64]
  | a :: b :: c :: rest =>
      let n := a * 65536 + b * 256 + c in
      n / 262144 :: n / 4096 mod 64 :: n / 64 mod 64 :: n mod 64
        :: toSextets rest
  end.

(** [buf.toString('base64')]: the alphabet characters of the 6-bit groups,
    then [=] up to a multiple of four characters. *)
Definition toBase64 (bs : list Z) : jsstring :=
  let chars := map b64char (toSextets bs) in
  chars ++ repeat 61 (Nat.modulo (4 - Nat.modulo (length chars) 4) 4).

Definition isAsciiWhitespace (c : Z) : bool :=
  (c =? 9) || (c =? 10) || (c =? 12) || (c =? 13) || (c =? 32).

(** Remove a final [=], if there is one. *)
Definition dropPad (data : jsstring) : jsstring :=
  if last data 0 =? 61 then removelast data else data.

Fixpoint sextetsOf (data : jsstring) : option (list Z) :=
  match data with
  | [] => Some []
  | c :: rest =>
      match b64val c, sextetsOf rest with
      | Some v, Some vs => Some (v :: vs)
      | _, _ => None
      end
  end.

(** Bytes of a sequence of 6-bit groups; 12 left-over bits lose their last
    four, 18 left-over bits their last two. *)
Fixpoint fromSextets (vs : list Z) : list Z :=
  match vs with
  | a :: b :: c :: d :: rest =>
      let n := a * 262144 + b * 4096 + c * 64 + d in
      n / 65536 :: n / 256 mod 256 :: n mod 256 :: fromSextets rest
  | [a; b; c] =>
      let n := (a * 4096 + b * 64 + c) / 4 in
      [n / 256; n mod 256]
  | [a; b] =>
      let n := (a * 64 + b) / 16 in
      [n]
  | _ => []
  end.

(** [atob(data)], the forgiving-base64 decode of the HTML standard; [None]
    is the [InvalidCharacterError] exception.  The result is a string with
    one code unit per decoded byte. *)
Definition atob (data : jsstring) : option jsstring :=
  let data := filter (fun c => negb (isAsciiWhitespace c)) data in
  let data :=
    if Zlength data mod 4 =? 0 then dropPad (dropPad data) else data in
  if Zlength data mod 4 =? 1 then None
  else option_map fromSextets (sextetsOf data).

(** ** scripts/obfuscate-email.mjs *)

(** Lines 29-50: the two values the script prints,
    [(encryptedData, encodedKey)]. *)
Definition obfuscate (email key : jsstring) : jsstring * jsstring :=
  let encodedKey := rot13 key in
  let encrypted := xorLoop key 0 email in
  let encryptedData := toBase64 (latin1 encrypted) in
  (encryptedData, encodedKey).

(** Lines 20-27 in front of them: a missing or empty argument ends the
    script with the usage message. *)
Definition script (email key : jsstring) : option (jsstring * jsstring) :=
  match email, key with
  | [], _ | _, [] => None
  | _, _ => Some (obfuscate email key)
  end.

(** ** EmailLink.tsx *)

(** Lines 24-45 of [handleClick]: the value of [decrypted]. *)
Definition decrypted (encryptedData encodedKey : jsstring) : option jsstring :=
  let xorKey := rot13 encodedKey in
  match atob encryptedData with
  | None => None
  | Some encryptedBytes => Some (xorLoop xorKey 0 encryptedBytes)
  end.

(** ["mailto:"] *)
Definition mailto : jsstring := [109; 97; 105; 108; 116; 111; 58].

(** [handleClick]: the address the page is sent to (line 48). *)
Definition handleClick (encryptedData encodedKey : jsstring) : option jsstring :=
  option_map (fun d => mailto ++ d) (decrypted encryptedData encodedKey).

End Obfuscation.

Import Obfuscation.


(* ================================================================= *)
(** * Vocabulary of the statements *)

Module Vocabulary.

(** [clamp] on finite numbers, as a function on rationals. *)
Definition qclamp (x lo hi : Q) : Q :=
  let y := if Qle_bool hi x then hi else x in
  if Qle_bool lo y then y else lo.

(** [Math.round] on finite numbers. *)
Definition qround (x : Q) : Z := Qfloor (x + (1 # 2)).

(** Rounding of a finite number to the nearest multiple of [s]. *)
Definition qsnap (s r : Q) : Q := inject_Z (qround (r / s)) * s.

(** The linear map of [[-1, 1]] onto [[lo, hi]] (line 101). *)
Definition qraw (lo hi v : Q) : Q := lo + ((v + 1) * (hi + - lo)) / 2.

(** The value [quantizeToGrid] computes from a finite input when
    [step <> 0]. *)
Definition qquantize (p : Props) (v : Q) : Q :=
  qclamp (qsnap (step p) (qraw (minValue p) (maxValue p) v))
         (minValue p) (maxValue p).

(** [x] is one of [minValue, minValue + step, ..., minValue + n * step]. *)
Definition onGrid (p : Props) (n : Z) (x : num) : Prop :=
  exists k : Z,
    (0 <= k <= n)%Z /\ x =n= Fin (minValue p + inject_Z k * step p).

(** [x] is a finite number between [lo] and [hi]. *)
Definition within (lo hi : Q) (x : num) : Prop :=
  exists q : Q, x = Fin q /\ lo <= q <= hi.

(** The gaze state of a pupil: centred exactly when it is [(0, 0)], the test
    of line 118. *)
Definition isCentered (pupil : num * num) : bool :=
  strict_eq (fst pupil) (Fin 0) && strict_eq (snd pupil) (Fin 0).

(** What [handler?.()] adds to the log. *)
Definition optList (supplied : bool) (c : Callback) : list Callback :=
  if supplied then [c] else [].

(** The handler [updatePupilPosition] calls for a pupil. *)
Definition gazeCallback (p : Props) (pupil : num * num) : list Callback :=
  if isCentered pupil then optList (onCenter p) OnCenter
  else optList (onLooking p) OnLooking.

(** The pupil [handlePointerMove] resolves for a pointer position. *)
Definition pupilOf (p : Props) (rect : Rect) (clientX clientY : num)
  : num * num :=
  let cp := clampedPointer rect clientX clientY in
  (quantizeToGrid p (fst cp), quantizeToGrid p (snd cp)).

(** The timer table once the timer a ref names is cleared. *)
Definition clearRef (r : option nat) (l : list nat) : list nat :=
  match r with
  | Some id => remove Nat.eq_dec id l
  | None => l
  end.

(** The three cells of a state that hold the displayed position. *)
Definition displayed (s : State) : (num * num) * (num * num) * (num * num) :=
  (currentPupil s, gridPosition s, backgroundPosition s).

(** At most one timer is pending, and it is the one the ref names. *)
Definition singleTimer (s : State) : Prop :=
  pending s = [] \/
  exists id, pending s = [id] /\ idleTimerRef s = Some id.

(** Timer ids are handed out in increasing order: every pending timer was
    set before the next id. *)
Definition timersBelowNext (s : State) : Prop :=
  Forall (fun id => (id < nextTimer s)%nat) (pending s).

(** Pointer and touch events, as opposed to timer expiry and layout. *)
Definition isPointerEvent (e : Event) : bool :=
  match e with
  | MouseMove _ _ | TouchMove _ | TouchEnd => true
  | TimerFire _ | Layout _ => false
  end.

(** A code unit that is a byte (Latin-1). *)
Definition isByte (c : Z) : Prop := (0 <= c <= 255)%Z.

(** A 6-bit group. *)
Definition isSextet (v : Z) : Prop := (0 <= v <= 63)%Z.

End Vocabulary.

Import Vocabulary.

(* ================================================================= *)
(** * FaceLooker.tsx: teardown *)

Module Lifecycle.

(** The component together with its three window listeners (lines 204-206):
    [listening] tells whether they are registered. *)
Record Host : Type := mkHost {
  component : State;
  listening : bool
}.

(** Lines 213-215, the timer part of the effect's cleanup. *)
Definition clearIdleTimer : M unit :=
  s <- get ;;
  match idleTimerRef s with
  | Some id => clearTimeout id
  | None => ret tt
  end.

(** Lines 176-206: the effect body, the silent initial position and the
    registration of the listeners. *)
Definition setup (p : Props) (s : State) : Host * list Callback :=
  let '(_, s', l) := updatePupilPosition p (Fin 0) (Fin 0) false s in
  (mkHost s' true, l).

(** Lines 209-216: the cleanup, run when the component is torn down. *)
Definition cleanup (h : Host) : Host :=
  let '(_, s', _) := clearIdleTimer (component h) in
  mkHost s' false.

(** First render and effect. *)
Definition attach (p : Props) (c : option Rect) : Host * list Callback :=
  setup p (initialState c).

(** A change of [idleTimeout], the effect's only dependency: cleanup, then
    the effect body again. *)
Definition rerunEffect (p : Props) (h : Host) : Host * list Callback :=
  setup p (component (cleanup h)).

(** An event reaching the window: pointer and touch events are handled only
    while the listeners are registered. *)
Definition deliver (p : Props) (h : Host) (e : Event) : Host * list Callback :=
  if isPointerEvent e && negb (listening h) then (h, [])
  else
    let '(s, l) := dispatch p (component h) e in
    (mkHost s (listening h), l).

Fixpoint deliverAll (p : Props) (h : Host) (es : list Event)
  : Host * list Callback :=
  match es with
  | [] => (h, [])
  | e :: es' =>
      let '(h1, l1) := deliver p h e in
      let '(h2, l2) := deliverAll p h1 es' in
      (h2, l1 ++ l2)
  end.

End Lifecycle.

Import Lifecycle.

(* ================================================================= *)
(** * Avatar.tsx: the overlay *)

Module Avatar.

(** The [isLooking] cell of [Avatar] (line 30) and the [FaceLooker] it
    renders; the shake animation is not part of the model. *)
Record AvatarState : Type := mkAvatar {
  isLooking : bool;
  face : State
}.

(** Lines 91-100: [FaceLooker] gets the sprite width, the default grid and
    both handlers. *)
Definition faceProps (gazeSpriteWidth : Q) : Props := defaults gazeSpriteWidth.

(** Lines 98-99: [onCenter] is [() => setIsLooking(false)], [onLooking] is
    [() => setIsLooking(true)]. *)
Definition setIsLooking (current : bool) (c : Callback) : bool :=
  match c with
  | OnCenter => false
  | OnLooking => true
  end.

(** Line 88: [opacity: isLooking ? 1 : 0]. *)
Definition opacity (a : AvatarState) : Z := if isLooking a then 1%Z else 0%Z.

Definition avatarMount (gazeSpriteWidth : Q) (c : option Rect) : AvatarState :=
  let '(s, l) := mount (faceProps gazeSpriteWidth) c in
  mkAvatar (fold_left setIsLooking l false) s.

Definition avatarDispatch (gazeSpriteWidth : Q) (a : AvatarState) (e : Event)
  : AvatarState :=
  let '(s, l) := dispatch (faceProps gazeSpriteWidth) (face a) e in
  mkAvatar (fold_left setIsLooking l (isLooking a)) s.

Definition avatarRun (gazeSpriteWidth : Q) (a : AvatarState) (es : list Event)
  : AvatarState :=
  fold_left (avatarDispatch gazeSpriteWidth) es a.

End Avatar.

Import Avatar.

(* ================================================================= *)
(** * Vocabulary of the further statements *)

Module Vocabulary2.

(** The three position cells agree: the grid position and the offset are
    the ones [getBackgroundPosition] gives for the stored pupil. *)
Definition consistent (p : Props) (s : State) : Prop :=
  let pos := getBackgroundPosition p (fst (currentPupil s)) (snd (currentPupil s)) in
  gridPosition s = (pos_col pos, pos_row pos) /\
  backgroundPosition s = (pos_x pos, pos_y pos).

(** A tracking region that is missing or has a positive width and height. *)
Definition measurable (c : option Rect) : Prop :=
  match c with
  | Some rect => 0 < width rect /\ 0 < height rect
  | None => True
  end.

(** Events without NaN coordinates (of a touch move, those of the first
    touch, the only one read) and without empty regions. *)
Definition wellFormed (e : Event) : Prop :=
  match e with
  | MouseMove x y => isNaN x = false /\ isNaN y = false
  | TouchMove ts =>
      match ts with
      | touch :: _ => isNaN (fst touch) = false /\ isNaN (snd touch) = false
      | [] => True
      end
  | Layout c => measurable c
  | TouchEnd | TimerFire _ => True
  end.

(** [a <= b] on finite numbers. *)
Definition finLe (a b : num) : Prop :=
  match a, b with
  | Fin x, Fin y => x <= y
  | _, _ => False
  end.

(** An ASCII letter, and its case. *)
Definition isUpper (c : Z) : Prop := (65 <= c <= 90)%Z.
Definition isLower (c : Z) : Prop := (97 <= c <= 122)%Z.

(** A UTF-16 code unit. *)
Definition isCodeUnit (c : Z) : Prop := (0 <= c <= 65535)%Z.

End Vocabulary2.

Import Vocabulary2.

(** [lia] after the elimination of [/] and [mod] by constants. *)
Ltac zlia := Z.to_euclidean_division_equations; lia.

(* ================================================================= *)
(** * Numbers *)

Section NumFacts.


Lemma num_eq_sym (a b : num) : a =n= b -> b =n= a.
Proof. destruct a, b; simpl; auto with qarith. Qed.

Lemma num_eq_trans (a b c : num) : a =n= b -> b =n= c -> a =n= c.
Proof.
  destruct a, b, c; simpl; try tauto.
  intros H1 H2. now rewrite H1.
Qed.

Lemma Qeq_bool_false (x y : Q) : ~ x == y -> Qeq_bool x y = false.
Proof.
  intro H. destruct (Qeq_bool x y) eqn:E; [|reflexivity].
  apply Qeq_bool_eq in E. contradiction.
Qed.

Lemma Qle_bool_false (x y : Q) : Qle_bool x y = false <-> y < x.
Proof.
  split; intro H.
  - apply Qnot_le_lt. intro L. apply Qle_bool_iff in L. congruence.
  - destruct (Qle_bool x y) eqn:E; [|reflexivity].
    apply Qle_bool_iff in E. lra.
Qed.

Lemma div_fin (r s : Q) : ~ s == 0 -> div (Fin r) (Fin s) = Fin (r / s).
Proof. intro H. simpl. now rewrite (Qeq_bool_false H). Qed.

Lemma clamp_fin (x lo hi : Q) :
  clamp (Fin x) (Fin lo) (Fin hi) = Fin (qclamp x lo hi).
Proof.
  unfold clamp, qclamp, max, min, leb.
  destruct (Qle_bool hi x); simpl;
    match goal with |- context [Qle_bool ?a ?b] => destruct (Qle_bool a b) end;
    reflexivity.
Qed.

Lemma qclamp_cases (x lo hi : Q) :
  (hi <= x /\ lo <= hi /\ qclamp x lo hi = hi) \/
  (lo <= x /\ x < hi /\ qclamp x lo hi = x) \/
  ((hi < lo \/ x < lo) /\ qclamp x lo hi = lo).
Proof.
  unfold qclamp.
  destruct (Qle_bool hi x) eqn:E1.
  - apply Qle_bool_iff in E1.
    destruct (Qle_bool lo hi) eqn:E2.
    + apply Qle_bool_iff in E2. left. auto.
    + apply Qle_bool_false in E2. right. right. auto.
  - apply Qle_bool_false in E1.
    destruct (Qle_bool lo x) eqn:E2.
    + apply Qle_bool_iff in E2. right. left. auto.
    + apply Qle_bool_false in E2. right. right. auto.
Qed.

Lemma qclamp_bounds (x lo hi : Q) :
  lo <= hi -> lo <= qclamp x lo hi <= hi.
Proof.
  intro H.
  destruct (qclamp_cases x lo hi) as [(?&?&->)|[(?&?&->)|([?|?]&->)]]; lra.
Qed.

Lemma quantizeToGrid_fin (p : Props) (v : Q) :
  ~ step p == 0 -> quantizeToGrid p (Fin v) = Fin (qquantize p v).
Proof.
  intro Hs. unfold quantizeToGrid, qquantize, qsnap, qraw, qround.
  cbn [add sub neg mul].
  rewrite (@div_fin _ 2) by (intro H; discriminate H).
  cbn [add]. rewrite (div_fin _ Hs). cbn [round mul].
  apply clamp_fin.
Qed.


End NumFacts.

(* ================================================================= *)
(** * Rounding to the step *)

Section Snap.

Lemma Qinv_sign (s : Q) : ~ s == 0 -> s * / s == 1 /\ (0 < s -> 0 < / s) /\ (s < 0 -> / s < 0).
Proof.
  intro Hs. split; [now apply Qmult_inv_r|]. split; intro H.
  - now apply Qinv_lt_0_compat.
  - assert (E : s * / s == 1) by now apply Qmult_inv_r.
    destruct (Qlt_le_dec (/ s) 0) as [L|L]; [exact L|].
    exfalso. nra.
Qed.

Lemma Qdiv_mono_pos (s r1 r2 : Q) : 0 < s -> r1 <= r2 -> r1 / s <= r2 / s.
Proof.
  intros Hs H. unfold Qdiv.
  destruct (@Qinv_sign s) as (_ & P & _); [lra|].
  specialize (P Hs). nra.
Qed.

Lemma Qdiv_mono_neg (s r1 r2 : Q) : s < 0 -> r1 <= r2 -> r2 / s <= r1 / s.
Proof.
  intros Hs H. unfold Qdiv.
  destruct (@Qinv_sign s) as (_ & _ & N); [lra|].
  specialize (N Hs). nra.
Qed.

Lemma qround_mono (x y : Q) : x <= y -> (qround x <= qround y)%Z.
Proof. intro H. unfold qround. apply Qfloor_resp_le. lra. Qed.

Lemma qround_Z (k : Z) (x : Q) : x == inject_Z k -> qround x = k.
Proof.
  intro H. unfold qround. rewrite H.
  assert (L : (k <= Qfloor (inject_Z k + (1 # 2)))%Z).
  { rewrite <- (Qfloor_Z k) at 1. apply Qfloor_resp_le. lra. }
  assert (U : (Qfloor (inject_Z k + (1 # 2)) < k + 1)%Z).
  { rewrite Zlt_Qlt, inject_Z_plus.
    pose proof (Qfloor_le (inject_Z k + (1 # 2))) as F.
    change (inject_Z 1) with 1. lra. }
  lia.
Qed.

Lemma qsnap_mono (s r1 r2 : Q) :
  ~ s == 0 -> r1 <= r2 -> qsnap s r1 <= qsnap s r2.
Proof.
  intros Hs H. unfold qsnap.
  destruct (Q_dec s 0) as [[N|P]|E]; [| |contradiction].
  - assert (L : (qround (r2 / s) <= qround (r1 / s))%Z)
      by now apply qround_mono, Qdiv_mono_neg.
    rewrite Zle_Qle in L. nra.
  - assert (L : (qround (r1 / s) <= qround (r2 / s))%Z)
      by now apply qround_mono, Qdiv_mono_pos.
    rewrite Zle_Qle in L. nra.
Qed.




End Snap.

(* ================================================================= *)
(** * Quantisation and cell resolution *)

Section Grid.



Lemma index_not_NaN (m s : Q) (a : num) :
  ~ s == 0 -> isNaN a = false ->
  isNaN (round (div (sub a (Fin m)) (Fin s))) = false.
Proof.
  intros Hs Ha. destruct a; try discriminate; simpl.
  - now rewrite (Qeq_bool_false Hs).
  - now destruct (s ?= 0).
  - now destruct (s ?= 0).
Qed.

Lemma clamped_index_within (g : Q) (index : num) :
  1 <= g -> isNaN index = false ->
  within 0 (g - 1) (max (Fin 0) (min (sub (Fin g) (Fin 1)) index)).
Proof.
  intros Hg Hn. unfold within. destruct index as [i| | |]; try discriminate.
  - change (max (Fin 0) (min (sub (Fin g) (Fin 1)) (Fin i)))
      with (clamp (Fin i) (Fin 0) (Fin (g + - 1))).
    rewrite clamp_fin. eexists. split; [reflexivity|].
    assert (B : 0 <= g + - 1) by lra.
    pose proof (qclamp_bounds i B). lra.
  - unfold max, min, sub, add, neg, leb.
    match goal with
    | |- context [Qle_bool ?a ?b] => destruct (Qle_bool a b) eqn:E
    end.
    + eexists. apply Qle_bool_iff in E. split; [reflexivity|lra].
    + apply Qle_bool_false in E. lra.
  - exists 0. split; [reflexivity|lra].
Qed.

(** C5: for every pair of pupil values other than NaN (finite values of any
    size, and the infinities), and every configuration with a non-zero step
    and at least one grid cell, [getBackgroundPosition] returns a column and
    a row that are finite and lie between [0] and [gridSize - 1]. *)
Theorem grid_coordinate_in_range (p : Props) (pupilX pupilY : num) :
  1 <= gridSize p -> ~ step p == 0 ->
  isNaN pupilX = false -> isNaN pupilY = false ->
  let pos := getBackgroundPosition p pupilX pupilY in
  within 0 (gridSize p - 1) (pos_col pos) /\
  within 0 (gridSize p - 1) (pos_row pos).
Proof.
  intros Hg Hs Hx Hy. simpl.
  split; apply clamped_index_within; auto using index_not_NaN.
Qed.

Lemma grid_coordinate_in_range_witness :
  within 0 (11 - 1) (pos_col (getBackgroundPosition (defaults 1100) (Fin 400) NInf)) /\
  within 0 (11 - 1) (pos_row (getBackgroundPosition (defaults 1100) (Fin 400) NInf)).
Proof.
  apply (@grid_coordinate_in_range (defaults 1100) (Fin 400) NInf).
  - simpl. lra.
  - simpl. lra.
  - reflexivity.
  - reflexivity.
Defined.

(** C6: with the default parameters and [spriteWidth = 1100], the normalised
    input [(1, 1)] quantises to the pupil [(15, 15)], which resolves to the
    grid cell [(10, 10)]; the cell size is [100] and the render offset
    [(-1000, -1000)].  For every configuration and every pupil, the offset
    is [(-(col * cellSize), -(row * cellSize))] with
    [cellSize = spriteWidth / gridSize]. *)
Theorem default_scenario :
  (let p := defaults 1100 in
   let pupilX := quantizeToGrid p (Fin 1) in
   let pupilY := quantizeToGrid p (Fin 1) in
   let pos := getBackgroundPosition p pupilX pupilY in
   pupilX =n= Fin 15 /\ pupilY =n= Fin 15 /\
   pos_col pos =n= Fin 10 /\ pos_row pos =n= Fin 10 /\
   actualCellSize p =n= Fin 100 /\
   pos_x pos =n= Fin (-1000) /\ pos_y pos =n= Fin (-1000)) /\
  (forall (p : Props) (pupilX pupilY : num),
     let pos := getBackgroundPosition p pupilX pupilY in
     pos_x pos = neg (mul (pos_col pos) (actualCellSize p)) /\
     pos_y pos = neg (mul (pos_row pos) (actualCellSize p)) /\
     actualCellSize p = div (Fin (spriteWidth p)) (Fin (gridSize p))).
Proof.
  split.
  - vm_compute. repeat split; reflexivity.
  - intros p pupilX pupilY. simpl. repeat split; reflexivity.
Qed.




Lemma Qmult_le_reg_pos (s a b : Q) : 0 < s -> a * s <= b * s -> a <= b.
Proof. intros Hs H. destruct (Qlt_le_dec b a) as [L|L]; [exfalso; nra|exact L]. Qed.

Lemma Qmult_lt_reg_pos (s a b : Q) : 0 < s -> a * s < b * s -> a < b.
Proof. intros Hs H. destruct (Qlt_le_dec a b) as [L|L]; [exact L|exfalso; nra]. Qed.

(** C4, as the code has it: for every configuration in which [step] is not
    zero, [gridSize] is the positive integer [(maxValue - minValue) / step + 1]
    and [minValue] is an integer multiple of [step] (all true of the
    defaults), every normalised input in [[-1, 1]] is quantised to one of
    [minValue, minValue + step, ..., maxValue]. *)
Theorem quantize_on_grid (p : Props) (n m : Z) (v : Q) :
  ~ step p == 0 ->
  gridSize p == (maxValue p - minValue p) / step p + 1 ->
  (0 <= n)%Z -> gridSize p == inject_Z n + 1 ->
  minValue p == inject_Z m * step p ->
  -1 <= v <= 1 ->
  onGrid p n (quantizeToGrid p (Fin v)).
Proof.
  intros Hs Hg Hn Hgn Hm Hv.
  rewrite (quantizeToGrid_fin _ _ Hs). unfold onGrid, qquantize.
  remember (minValue p) as lo eqn:El. remember (maxValue p) as hi eqn:Eh.
  remember (step p) as s eqn:Es. clear El Eh Es.
  assert (D : hi + - lo == inject_Z n * s).
  { assert (E : (hi - lo) / s == inject_Z n) by lra.
    rewrite <- E. field. exact Hs. }
  rewrite Zle_Qle in Hn. change (inject_Z 0) with 0 in Hn.
  remember (qraw lo hi v) as r eqn:Er. clear Er.
  unfold qsnap. remember (qround (r / s)) as k eqn:Ek. clear Ek.
  destruct (qclamp_cases (inject_Z k * s) lo hi)
    as [(A & B & ->)|[(A & B & ->)|(A & ->)]].
  - exists n. split; [rewrite !Zle_Qle; change (inject_Z 0) with 0; lra|].
    simpl. lra.
  - destruct (Q_dec s 0) as [[N|P]|E]; [| |contradiction].
    + exfalso. nra.
    + exists (k - m)%Z. split.
      * assert (L1 : inject_Z m <= inject_Z k)
          by (apply (Qmult_le_reg_pos P); lra).
        assert (L2 : inject_Z k < inject_Z m + inject_Z n)
          by (apply (Qmult_lt_reg_pos P); nra).
        rewrite <- inject_Z_plus in L2.
        rewrite <- Zle_Qle in L1. rewrite <- Zlt_Qlt in L2. lia.
      * simpl. unfold Zminus. rewrite inject_Z_plus, inject_Z_opp. nra.
  - exists 0%Z. split; [rewrite !Zle_Qle; change (inject_Z 0) with 0; lra|].
    simpl. change (inject_Z 0) with 0. lra.
Qed.

Lemma quantize_on_grid_witness :
  onGrid (defaults 1100) 10 (quantizeToGrid (defaults 1100) (Fin (2 # 5))).
Proof.
  apply (@quantize_on_grid (defaults 1100) 10 (-5) (2 # 5)).
  - simpl. lra.
  - reflexivity.
  - lia.
  - reflexivity.
  - reflexivity.
  - lra.
Defined.

(** C4 as stated fails: [gridSize = 2, minValue = -1, maxValue = 1, step = 2]
    satisfy [gridSize == (maxValue - minValue) / step + 1], the grid values
    are [-1] and [1], and the normalised input [0] is quantised to [0]. *)
Lemma quantize_off_grid :
  let p := mkProps 200 2 (-1) 1 2 true true in
  gridSize p == (maxValue p - minValue p) / step p + 1 /\
  -1 <= 0 <= 1 /\
  quantizeToGrid p (Fin 0) =n= Fin 0 /\
  ~ onGrid p 1 (quantizeToGrid p (Fin 0)).
Proof.
  cbv zeta. split; [reflexivity|]. split; [lra|]. split; [reflexivity|].
  intros (k & Hk & E).
  assert (K : k = 0%Z \/ k = 1%Z) by lia.
  destruct K; subst k; vm_compute in E; discriminate E.
Qed.

End Grid.

(* ================================================================= *)
(** * Event handling *)

Section Events.

Variable p : Props.

Lemma updatePupilPosition_run (x y : num) (t : bool) (s : State) :
  updatePupilPosition p x y t s =
  (tt,
   mkState (pos_x (getBackgroundPosition p x y), pos_y (getBackgroundPosition p x y))
           (pos_col (getBackgroundPosition p x y), pos_row (getBackgroundPosition p x y))
           (x, y) (containerRef s) (idleTimerRef s) (pending s) (nextTimer s),
   if t then gazeCallback p (x, y) else []).
Proof.
  unfold updatePupilPosition, gazeCallback, isCentered, optList, invokeOpt.
  cbn [fst snd].
  destruct t; [destruct (strict_eq x (Fin 0) && strict_eq y (Fin 0));
               [destruct (onCenter p)|destruct (onLooking p)]|];
    reflexivity.
Qed.

Lemma restartIdleTimer_run (s : State) :
  restartIdleTimer s =
  (tt,
   mkState (backgroundPosition s) (gridPosition s) (currentPupil s)
           (containerRef s) (Some (nextTimer s))
           (nextTimer s :: clearRef (idleTimerRef s) (pending s))
           (S (nextTimer s)),
   []).
Proof.
  unfold restartIdleTimer, clearRef, bind, get. cbn beta iota.
  destruct (idleTimerRef s); reflexivity.
Qed.

Lemma handlePointerMove_detached (x y : num) (s : State) :
  containerRef s = None -> handlePointerMove p x y s = (tt, s, []).
Proof.
  intro H. unfold handlePointerMove, bind, get. cbn beta iota.
  rewrite H. reflexivity.
Qed.

Lemma handlePointerMove_attached (x y : num) (s : State) (rect : Rect) :
  containerRef s = Some rect ->
  handlePointerMove p x y s =
  (tt,
   let pupil := pupilOf p rect x y in
   let pos := getBackgroundPosition p (fst pupil) (snd pupil) in
   mkState (pos_x pos, pos_y pos) (pos_col pos, pos_row pos) pupil
           (Some rect) (Some (nextTimer s))
           (nextTimer s :: clearRef (idleTimerRef s) (pending s))
           (S (nextTimer s)),
   gazeCallback p (pupilOf p rect x y)).
Proof.
  intro H. unfold handlePointerMove, pupilOf.
  unfold bind at 1. unfold get at 1. cbn beta iota. rewrite H.
  destruct (clampedPointer rect x y) as [cx cy]. cbn [fst snd].
  unfold bind. rewrite updatePupilPosition_run, restartIdleTimer_run.
  cbn [backgroundPosition gridPosition currentPupil containerRef idleTimerRef
       pending nextTimer].
  rewrite H, app_nil_r. reflexivity.
Qed.

Lemma timerFire_pending (id : nat) (s : State) :
  In id (pending s) ->
  timerFire p id s =
  (tt,
   mkState (backgroundPosition s) (gridPosition s) (currentPupil s)
           (containerRef s) (idleTimerRef s)
           (remove Nat.eq_dec id (pending s)) (nextTimer s),
   optList (onCenter p) OnCenter).
Proof.
  intro H. unfold timerFire, bind, get. cbn beta iota.
  destruct (in_dec Nat.eq_dec id (pending s)) as [_|N]; [|contradiction].
  unfold fadeToCenter, invokeOpt, optList.
  destruct (onCenter p); reflexivity.
Qed.

Lemma timerFire_expired (id : nat) (s : State) :
  ~ In id (pending s) -> timerFire p id s = (tt, s, []).
Proof.
  intro H. unfold timerFire, bind, get. cbn beta iota.
  destruct (in_dec Nat.eq_dec id (pending s)) as [I|_]; [contradiction|].
  reflexivity.
Qed.

End Events.

(* ================================================================= *)
(** * Handler invocations *)

Section Callbacks.

Variable p : Props.

Lemma dispatch_MouseMove_attached (s : State) (rect : Rect) (x y : num) :
  containerRef s = Some rect ->
  dispatch p s (MouseMove x y) =
  (let pupil := pupilOf p rect x y in
   let pos := getBackgroundPosition p (fst pupil) (snd pupil) in
   mkState (pos_x pos, pos_y pos) (pos_col pos, pos_row pos) pupil
           (Some rect) (Some (nextTimer s))
           (nextTimer s :: clearRef (idleTimerRef s) (pending s))
           (S (nextTimer s)),
   gazeCallback p (pupilOf p rect x y)).
Proof.
  intro H. unfold dispatch, handle, handleMouseMove.
  now rewrite (handlePointerMove_attached p x y s H).
Qed.

Lemma dispatch_MouseMove_detached (s : State) (x y : num) :
  containerRef s = None -> dispatch p s (MouseMove x y) = (s, []).
Proof.
  intro H. unfold dispatch, handle, handleMouseMove.
  now rewrite (handlePointerMove_detached p x y s H).
Qed.

Lemma dispatch_TouchMove_cons (s : State) (x y : num) (rest : list (num * num)) :
  dispatch p s (TouchMove ((x, y) :: rest)) = dispatch p s (MouseMove x y).
Proof. reflexivity. Qed.

Lemma dispatch_TouchMove_nil (s : State) :
  dispatch p s (TouchMove []) = (s, []).
Proof. reflexivity. Qed.

Lemma dispatch_TouchEnd (s : State) :
  dispatch p s TouchEnd =
  (mkState (backgroundPosition s) (gridPosition s) (currentPupil s)
           (containerRef s) (Some (nextTimer s))
           (nextTimer s :: clearRef (idleTimerRef s) (pending s))
           (S (nextTimer s)),
   []).
Proof.
  unfold dispatch, handle, handleTouchEnd. now rewrite restartIdleTimer_run.
Qed.

Lemma dispatch_TimerFire_pending (s : State) (id : nat) :
  In id (pending s) ->
  dispatch p s (TimerFire id) =
  (mkState (backgroundPosition s) (gridPosition s) (currentPupil s)
           (containerRef s) (idleTimerRef s)
           (remove Nat.eq_dec id (pending s)) (nextTimer s),
   optList (onCenter p) OnCenter).
Proof.
  intro H. unfold dispatch, handle. now rewrite (timerFire_pending p id s H).
Qed.

Lemma dispatch_TimerFire_expired (s : State) (id : nat) :
  ~ In id (pending s) -> dispatch p s (TimerFire id) = (s, []).
Proof.
  intro H. unfold dispatch, handle. now rewrite (timerFire_expired p id s H).
Qed.

Lemma dispatch_Layout (s : State) (c : option Rect) :
  dispatch p s (Layout c) =
  (mkState (backgroundPosition s) (gridPosition s) (currentPupil s) c
           (idleTimerRef s) (pending s) (nextTimer s),
   []).
Proof. reflexivity. Qed.

End Callbacks.

(** C1, as the code has it: every pointer or touch move that reaches an
    attached tracking region invokes exactly one handler (both being
    supplied), chosen by the pupil it resolves to alone: [onCenter] when the
    pupil is exactly [(0, 0)], [onLooking] otherwise.  The previous gaze state
    plays no part, so two successive moves invoke two handlers, also when
    they resolve to the same state. *)
Theorem callback_on_every_move
  (p : Props) (s : State) (rect : Rect) (x1 y1 x2 y2 : num)
  (rest : list (num * num)) :
  containerRef s = Some rect -> onCenter p = true -> onLooking p = true ->
  let notify (pupil : num * num) :=
    if isCentered pupil then OnCenter else OnLooking in
  currentPupil (fst (dispatch p s (MouseMove x1 y1))) = pupilOf p rect x1 y1 /\
  snd (dispatch p s (MouseMove x1 y1)) = [notify (pupilOf p rect x1 y1)] /\
  snd (dispatch p s (TouchMove ((x1, y1) :: rest)))
  = [notify (pupilOf p rect x1 y1)] /\
  snd (run p s [MouseMove x1 y1; MouseMove x2 y2])
  = [notify (pupilOf p rect x1 y1); notify (pupilOf p rect x2 y2)].
Proof.
  intros Hc Hoc Hol notify.
  assert (G : forall pupil, gazeCallback p pupil = [notify pupil]).
  { intro pupil. unfold gazeCallback, notify, optList.
    rewrite Hoc, Hol. now destruct (isCentered pupil). }
  rewrite dispatch_TouchMove_cons.
  cbn [run].
  rewrite (dispatch_MouseMove_attached p s x1 y1 Hc).
  cbn [fst snd currentPupil].
  rewrite (@dispatch_MouseMove_attached p _ rect x2 y2) by reflexivity.
  rewrite !G. repeat split; reflexivity.
Qed.

Lemma callback_on_every_move_witness :
  let p := defaults 1100 in
  let rect := mkRect 0 0 100 100 in
  let s := fst (mount p (Some rect)) in
  snd (run p s [MouseMove (Fin 100) (Fin 0); MouseMove (Fin 90) (Fin 10)])
  = [OnLooking; OnLooking].
Proof.
  cbv zeta.
  exact (proj2 (proj2 (proj2
    (@callback_on_every_move (defaults 1100)
       (fst (mount (defaults 1100) (Some (mkRect 0 0 100 100))))
       (mkRect 0 0 100 100) (Fin 100) (Fin 0) (Fin 90) (Fin 10) []
       eq_refl eq_refl eq_refl)))).
Defined.

(** C1 as stated fails: after mounting with the defaults over a region
    [100 x 100] at the origin, two successive moves to the centre [(50, 50)]
    both resolve to the pupil [(0, 0)], the gaze state is centred before,
    between and after them, and each of them invokes [onCenter]; two
    successive moves to the corner [(100, 0)] each invoke [onLooking]. *)
Lemma repeated_callbacks :
  let p := defaults 1100 in
  let s0 := fst (mount p (Some (mkRect 0 0 100 100))) in
  let s1 := fst (dispatch p s0 (MouseMove (Fin 50) (Fin 50))) in
  let s2 := fst (dispatch p s1 (MouseMove (Fin 50) (Fin 50))) in
  let t1 := fst (dispatch p s0 (MouseMove (Fin 100) (Fin 0))) in
  let t2 := fst (dispatch p t1 (MouseMove (Fin 100) (Fin 0))) in
  (isCentered (currentPupil s0) = true /\
   isCentered (currentPupil s1) = true /\
   isCentered (currentPupil s2) = true /\
   snd (dispatch p s0 (MouseMove (Fin 50) (Fin 50))) = [OnCenter] /\
   snd (dispatch p s1 (MouseMove (Fin 50) (Fin 50))) = [OnCenter]) /\
  (isCentered (currentPupil t1) = false /\
   isCentered (currentPupil t2) = false /\
   snd (dispatch p s0 (MouseMove (Fin 100) (Fin 0))) = [OnLooking] /\
   snd (dispatch p t1 (MouseMove (Fin 100) (Fin 0))) = [OnLooking]).
Proof. vm_compute. repeat split; reflexivity. Qed.

(** C2, as the code has it: when a pending idle timer fires, [onCenter]
    (being supplied) is invoked exactly once and nothing else happens: the
    pupil, the grid position and the background position stay what the last
    pointer event made them, the timer is no longer pending, and it cannot
    fire a second time. *)
Theorem idle_timeout_fades (p : Props) (s : State) (id : nat) :
  In id (pending s) -> onCenter p = true ->
  let s' := fst (dispatch p s (TimerFire id)) in
  snd (dispatch p s (TimerFire id)) = [OnCenter] /\
  displayed s' = displayed s /\
  ~ In id (pending s') /\
  dispatch p s' (TimerFire id) = (s', []).
Proof.
  intros Hin Hoc. cbv zeta.
  rewrite (dispatch_TimerFire_pending p s id Hin). cbn [fst snd].
  assert (N : ~ In id (remove Nat.eq_dec id (pending s))) by apply remove_In.
  split; [unfold optList; now rewrite Hoc|].
  split; [reflexivity|]. split; [exact N|].
  now apply dispatch_TimerFire_expired.
Qed.

Lemma idle_timeout_fades_witness :
  let p := defaults 1100 in
  let s := fst (run p (fst (mount p (Some (mkRect 0 0 100 100))))
                  [MouseMove (Fin 100) (Fin 0)]) in
  snd (dispatch p s (TimerFire 0)) = [OnCenter] /\
  displayed (fst (dispatch p s (TimerFire 0))) = displayed s.
Proof.
  cbv zeta.
  pose proof (@idle_timeout_fades (defaults 1100)
    (fst (run (defaults 1100)
            (fst (mount (defaults 1100) (Some (mkRect 0 0 100 100))))
            [MouseMove (Fin 100) (Fin 0)])) 0%nat) as W.
  cbv zeta in W.
  destruct W as (A & B & _).
  - vm_compute. left. reflexivity.
  - reflexivity.
  - split; [exact A|exact B].
Defined.

(** C2 as stated fails: after a move to the corner [(100, 0)] of a region
    [100 x 100] the pupil is [(15, 15)] and timer [0] is pending; when it
    fires [onCenter] is invoked, and the pupil is still [(15, 15)], the grid
    position still [(10, 10)] and the offset still [(-1000, -1000)]. *)
Lemma idle_timeout_keeps_position :
  let p := defaults 1100 in
  let s0 := fst (mount p (Some (mkRect 0 0 100 100))) in
  let s1 := fst (dispatch p s0 (MouseMove (Fin 100) (Fin 0))) in
  let s2 := fst (dispatch p s1 (TimerFire 0)) in
  pending s1 = [0%nat] /\ idleTimerRef s1 = Some 0%nat /\
  snd (dispatch p s1 (TimerFire 0)) = [OnCenter] /\
  isCentered (currentPupil s2) = false /\
  fst (currentPupil s2) =n= Fin 15 /\ snd (currentPupil s2) =n= Fin 15 /\
  fst (gridPosition s2) =n= Fin 10 /\ snd (gridPosition s2) =n= Fin 10 /\
  fst (backgroundPosition s2) =n= Fin (-1000) /\
  snd (backgroundPosition s2) =n= Fin (-1000).
Proof. vm_compute. repeat split; reflexivity. Qed.

(* ================================================================= *)
(** * Clamping of the pointer *)

Section Pointer.

Lemma Qcompare_pos (h : Q) : 0 < h -> (h ?= 0) = Gt.
Proof. intro H. now apply Qgt_alt. Qed.

(** [clamp((a - c) / h, -1, 1)] for a positive half-extent [h]. *)
Lemma normalized_x_within (c h : Q) (a : num) :
  0 < h -> isNaN a = false ->
  within (-1) 1 (clamp (div (sub a (Fin c)) (Fin h)) (Fin (-1)) (Fin 1)).
Proof.
  intros Hh Ha. assert (Hn : ~ h == 0) by lra.
  destruct a as [x| | |]; try discriminate; cbn [sub neg add].
  - rewrite (div_fin _ Hn), clamp_fin. eexists. split; [reflexivity|].
    apply qclamp_bounds. lra.
  - cbn [div]. rewrite (Qcompare_pos Hh). exists 1. split; [reflexivity|lra].
  - cbn [div]. rewrite (Qcompare_pos Hh). exists (-1). split; [reflexivity|lra].
Qed.

(** [clamp((c - a) / h, -1, 1)] for a positive half-extent [h]. *)
Lemma normalized_y_within (c h : Q) (a : num) :
  0 < h -> isNaN a = false ->
  within (-1) 1 (clamp (div (sub (Fin c) a) (Fin h)) (Fin (-1)) (Fin 1)).
Proof.
  intros Hh Ha. assert (Hn : ~ h == 0) by lra.
  destruct a as [x| | |]; try discriminate; cbn [sub neg add].
  - rewrite (div_fin _ Hn), clamp_fin. eexists. split; [reflexivity|].
    apply qclamp_bounds. lra.
  - cbn [div]. rewrite (Qcompare_pos Hh). exists (-1). split; [reflexivity|lra].
  - cbn [div]. rewrite (Qcompare_pos Hh). exists 1. split; [reflexivity|lra].
Qed.

Lemma clampedPointer_within (rect : Rect) (clientX clientY : num) :
  0 < width rect -> 0 < height rect ->
  isNaN clientX = false -> isNaN clientY = false ->
  within (-1) 1 (fst (clampedPointer rect clientX clientY)) /\
  within (-1) 1 (snd (clampedPointer rect clientX clientY)).
Proof.
  intros Hw Hh Hx Hy. unfold clampedPointer. cbn [fst snd].
  assert (T : ~ 2 == 0) by (intro E; discriminate E).
  rewrite !(div_fin _ T). cbn [add].
  split.
  - apply normalized_x_within; [|exact Hx]. apply Qlt_shift_div_l; lra.
  - apply normalized_y_within; [|exact Hy]. apply Qlt_shift_div_l; lra.
Qed.

Lemma quantizeToGrid_within (p : Props) (c : num) :
  ~ step p == 0 -> minValue p <= maxValue p ->
  within (-1) 1 c ->
  within (minValue p) (maxValue p) (quantizeToGrid p c).
Proof.
  intros Hs Hlh (q & -> & _).
  rewrite (quantizeToGrid_fin _ _ Hs). eexists. split; [reflexivity|].
  unfold qquantize. now apply qclamp_bounds.
Qed.

(** C3, as the code has it: when the tracking region is attached and has a
    positive width and height, every pointer coordinate other than NaN (in
    or out of the region, or infinite) is normalised to a finite value in
    [[-1, 1]], and the pupil stored by the move is finite and within
    [[minValue, maxValue]] (for a non-zero step and
    [minValue <= maxValue]); when the tracking region is missing, a mouse or
    touch move changes nothing: no state update, no handler, no timer. *)
Theorem pointer_move_clamps
  (p : Props) (s : State) (rect : Rect) (clientX clientY : num) :
  containerRef s = Some rect -> 0 < width rect -> 0 < height rect ->
  isNaN clientX = false -> isNaN clientY = false ->
  ~ step p == 0 -> minValue p <= maxValue p ->
  let cp := clampedPointer rect clientX clientY in
  let s' := fst (dispatch p s (MouseMove clientX clientY)) in
  (within (-1) 1 (fst cp) /\ within (-1) 1 (snd cp)) /\
  (within (minValue p) (maxValue p) (fst (currentPupil s')) /\
   within (minValue p) (maxValue p) (snd (currentPupil s'))) /\
  (forall bg grid pupil ref timers next x y ts,
     let s0 := mkState bg grid pupil None ref timers next in
     dispatch p s0 (MouseMove x y) = (s0, []) /\
     dispatch p s0 (TouchMove ts) = (s0, [])).
Proof.
  intros Hc Hw Hh Hx Hy Hs Hlh. cbv zeta.
  destruct (clampedPointer_within rect clientX clientY Hw Hh Hx Hy) as [Wx Wy].
  split; [now split|]. split.
  - rewrite (dispatch_MouseMove_attached p s clientX clientY Hc).
    cbn [fst snd currentPupil]. unfold pupilOf. cbn [fst snd].
    split; now apply quantizeToGrid_within.
  - intros bg grid pupil ref timers next x y ts.
    split; [now apply dispatch_MouseMove_detached|].
    destruct ts as [|[tx ty] rest]; [reflexivity|].
    rewrite dispatch_TouchMove_cons. now apply dispatch_MouseMove_detached.
Qed.

Lemma pointer_move_clamps_witness :
  let p := defaults 1100 in
  let rect := mkRect 0 0 100 100 in
  let s := fst (mount p (Some rect)) in
  let s' := fst (dispatch p s (MouseMove (Fin 5000) NInf)) in
  within (-1) 1 (fst (clampedPointer rect (Fin 5000) NInf)) /\
  within (-15) 15 (fst (currentPupil s')) /\
  within (-15) 15 (snd (currentPupil s')).
Proof.
  cbv zeta.
  pose proof (@pointer_move_clamps (defaults 1100)
    (fst (mount (defaults 1100) (Some (mkRect 0 0 100 100))))
    (mkRect 0 0 100 100) (Fin 5000) NInf) as W.
  cbv zeta in W.
  destruct W as ((A & _) & (B & C) & _).
  - reflexivity.
  - reflexivity.
  - reflexivity.
  - reflexivity.
  - reflexivity.
  - simpl. lra.
  - simpl. lra.
  - split; [exact A|]. split; [exact B|exact C].
Defined.

(** C3 as stated fails on a region of zero width and height (at the
    origin): a move to [(10, 10)] is not ignored, it stores the pupil
    [(15, -15)], invokes [onLooking] and starts a timer; a move to the origin
    itself stores the pupil [(NaN, NaN)].  A NaN coordinate over a region
    [100 x 100] is not clamped either: the pupil becomes NaN on that axis. *)
Lemma empty_region_is_tracked :
  let p := defaults 1100 in
  let s0 := fst (mount p (Some (mkRect 0 0 0 0))) in
  let s1 := fst (dispatch p s0 (MouseMove (Fin 10) (Fin 10))) in
  let s2 := fst (dispatch p s0 (MouseMove (Fin 0) (Fin 0))) in
  let r0 := fst (mount p (Some (mkRect 0 0 100 100))) in
  let r1 := fst (dispatch p r0 (MouseMove NaN (Fin 50))) in
  (pending s0 = [] /\
   snd (dispatch p s0 (MouseMove (Fin 10) (Fin 10))) = [OnLooking] /\
   pending s1 = [0%nat] /\
   fst (currentPupil s1) =n= Fin 15 /\ snd (currentPupil s1) =n= Fin (-15)) /\
  (currentPupil s2 = (NaN, NaN) /\
   snd (dispatch p s0 (MouseMove (Fin 0) (Fin 0))) = [OnLooking]) /\
  (fst (clampedPointer (mkRect 0 0 100 100) NaN (Fin 50)) = NaN /\
   fst (currentPupil r1) = NaN /\
   snd (dispatch p r0 (MouseMove NaN (Fin 50))) = [OnLooking]).
Proof. vm_compute. repeat split; reflexivity. Qed.

End Pointer.

(* ================================================================= *)
(** * The idle timer *)

Section IdleTimer.

Variable p : Props.

Lemma run_cons (s : State) (e : Event) (es : list Event) :
  fst (run p s (e :: es)) = fst (run p (fst (dispatch p s e)) es) /\
  snd (run p s (e :: es))
  = snd (dispatch p s e) ++ snd (run p (fst (dispatch p s e)) es).
Proof.
  cbn [run]. destruct (dispatch p s e) as [s1 l1]. cbn [fst snd].
  destruct (run p s1 es) as [s2 l2]. split; reflexivity.
Qed.

Lemma clearRef_single (s : State) :
  singleTimer s -> clearRef (idleTimerRef s) (pending s) = [].
Proof.
  intros [E|(id & E & R)]; rewrite E.
  - destruct (idleTimerRef s); reflexivity.
  - rewrite R. cbn [clearRef remove].
    destruct (Nat.eq_dec id id) as [_|N]; [reflexivity|congruence].
Qed.

Lemma restarted_single (bg grid pupil : num * num) (c : option Rect) (s : State) :
  singleTimer s -> timersBelowNext s ->
  let s' := mkState bg grid pupil c (Some (nextTimer s))
              (nextTimer s :: clearRef (idleTimerRef s) (pending s))
              (S (nextTimer s)) in
  singleTimer s' /\ timersBelowNext s'.
Proof.
  intros H _. cbv zeta. rewrite (clearRef_single H). split.
  - right. exists (nextTimer s). split; reflexivity.
  - unfold timersBelowNext. cbn [pending nextTimer].
    constructor; [lia|constructor].
Qed.

Lemma dispatch_single (s : State) (e : Event) :
  singleTimer s -> timersBelowNext s ->
  singleTimer (fst (dispatch p s e)) /\ timersBelowNext (fst (dispatch p s e)).
Proof.
  intros H B.
  assert (Move : forall x y,
    singleTimer (fst (dispatch p s (MouseMove x y))) /\
    timersBelowNext (fst (dispatch p s (MouseMove x y)))).
  { intros x y. destruct (containerRef s) as [rect|] eqn:C.
    - rewrite (dispatch_MouseMove_attached p s x y C). cbn [fst].
      now apply restarted_single.
    - rewrite (dispatch_MouseMove_detached p s x y C). now split. }
  destruct e as [x y|[|[x y] rest]| |id|c].
  - apply Move.
  - rewrite dispatch_TouchMove_nil. now split.
  - rewrite dispatch_TouchMove_cons. apply Move.
  - rewrite dispatch_TouchEnd. cbn [fst]. now apply restarted_single.
  - destruct (in_dec Nat.eq_dec id (pending s)) as [I|N].
    + rewrite (dispatch_TimerFire_pending p s id I). cbn [fst]. split.
      * left. cbn [pending].
        destruct H as [E|(id' & E & _)]; rewrite E in *; [destruct I|].
        destruct I as [->|[]]. cbn [remove].
        destruct (Nat.eq_dec id id) as [_|N]; [reflexivity|congruence].
      * unfold timersBelowNext in *. cbn [pending nextTimer].
        apply Forall_forall. intros i Hi. apply in_remove in Hi.
        rewrite Forall_forall in B. apply B, Hi.
    + rewrite (dispatch_TimerFire_expired p s id N). now split.
  - rewrite dispatch_Layout. cbn [fst]. split; [|exact B].
    destruct H as [E|(id & E & R)]; [left|right; exists id]; auto.
Qed.

Lemma run_single (es : list Event) (s : State) :
  singleTimer s -> timersBelowNext s ->
  singleTimer (fst (run p s es)) /\ timersBelowNext (fst (run p s es)).
Proof.
  revert s. induction es as [|e es IH]; intros s H B.
  - now split.
  - rewrite (proj1 (run_cons s e es)).
    destruct (dispatch_single e H B) as [H' B']. now apply IH.
Qed.

Lemma mount_state (c : option Rect) :
  mount p c =
  (mkState (pos_x (getBackgroundPosition p (Fin 0) (Fin 0)),
            pos_y (getBackgroundPosition p (Fin 0) (Fin 0)))
           (pos_col (getBackgroundPosition p (Fin 0) (Fin 0)),
            pos_row (getBackgroundPosition p (Fin 0) (Fin 0)))
           (Fin 0, Fin 0) c None [] 0,
   []).
Proof. unfold mount. now rewrite updatePupilPosition_run. Qed.

Lemma mount_single (c : option Rect) :
  singleTimer (fst (mount p c)) /\ timersBelowNext (fst (mount p c)).
Proof.
  rewrite mount_state. split; [now left|constructor].
Qed.

(** Without a pending timer, timer expiries and layout changes invoke
    nothing and leave no timer pending. *)
Lemma quiet_run (es : list Event) (s : State) :
  pending s = [] ->
  forallb (fun e => negb (isPointerEvent e)) es = true ->
  snd (run p s es) = [] /\ pending (fst (run p s es)) = [].
Proof.
  revert s. induction es as [|e es IH]; intros s E Q.
  - now split.
  - cbn [forallb] in Q. apply andb_prop in Q. destruct Q as [Qe Q].
    destruct (run_cons s e es) as [-> ->].
    destruct e as [x y|ts| |id|c]; try discriminate Qe.
    + assert (N : ~ In id (pending s)) by (rewrite E; intros []).
      rewrite (dispatch_TimerFire_expired p s id N). cbn [fst snd app].
      now apply IH.
    + rewrite dispatch_Layout. cbn [fst snd app]. now apply IH.
Qed.

Lemma quiet_timers (ids : list nat) :
  forallb (fun e => negb (isPointerEvent e)) (map TimerFire ids) = true.
Proof. induction ids as [|i ids IH]; [reflexivity|exact IH]. Qed.

(** However many expiries the host delivers, a single pending timer invokes
    at most one handler. *)
Lemma timers_fire_once (ids : list nat) (s : State) :
  singleTimer s ->
  (length (snd (run p s (map TimerFire ids))) <= 1)%nat.
Proof.
  intro H. induction ids as [|id ids IH]; [cbn; lia|].
  cbn [map]. rewrite (proj2 (run_cons s (TimerFire id) (map TimerFire ids))).
  destruct (in_dec Nat.eq_dec id (pending s)) as [I|N].
  - rewrite (dispatch_TimerFire_pending p s id I). cbn [fst snd].
    assert (E : remove Nat.eq_dec id (pending s) = []).
    { destruct H as [E|(id' & E & _)]; rewrite E in *; [destruct I|].
      destruct I as [->|[]]. cbn [remove].
      destruct (Nat.eq_dec id id) as [_|N]; [reflexivity|congruence]. }
    match goal with
    | |- context [run p ?st _] =>
        destruct (@quiet_run (map TimerFire ids) st E (quiet_timers ids))
          as [Q _]
    end.
    rewrite Q, app_nil_r. unfold optList. destruct (onCenter p); cbn; lia.
  - rewrite (dispatch_TimerFire_expired p s id N). cbn [fst snd app].
    exact IH.
Qed.

End IdleTimer.

(** C8: in every state the mounted component can reach, at most one idle
    timer is pending, and it is the one [idleTimerRef] names; a touch end,
    and a mouse move over an attached region, leave exactly one pending
    timer, the new one, whose id was not pending before; and whatever follows
    a sequence of events, the timer expiries after it invoke [onCenter] at
    most once. *)
Theorem single_idle_timer
  (p : Props) (c : option Rect) (es : list Event) (ids : list nat) (x y : num) :
  let s := fst (run p (fst (mount p c)) es) in
  (length (pending s) <= 1)%nat /\
  (forall id, In id (pending s) -> idleTimerRef s = Some id) /\
  ~ In (nextTimer s) (pending s) /\
  pending (fst (dispatch p s TouchEnd)) = [nextTimer s] /\
  pending (fst (dispatch p s (MouseMove x y)))
  = match containerRef s with
    | Some _ => [nextTimer s]
    | None => pending s
    end /\
  (length (snd (run p s (map TimerFire ids))) <= 1)%nat /\
  (forall cb, In cb (snd (run p s (map TimerFire ids))) -> cb = OnCenter).
Proof.
  cbv zeta.
  destruct (mount_single p c) as [H0 B0].
  destruct (run_single p es H0 B0) as [H B].
  remember (fst (run p (fst (mount p c)) es)) as s eqn:Es. clear Es H0 B0.
  split; [destruct H as [E|(id & E & _)]; rewrite E; cbn; lia|].
  split.
  { intros id I. destruct H as [E|(id' & E & R)]; rewrite E in I.
    - destruct I.
    - destruct I as [<-|[]]. exact R. }
  split.
  { intro I. unfold timersBelowNext in B. rewrite Forall_forall in B.
    apply B in I. lia. }
  split.
  { rewrite dispatch_TouchEnd. cbn [fst pending].
    now rewrite (clearRef_single H). }
  split.
  { destruct (containerRef s) as [rect|] eqn:C.
    - rewrite (dispatch_MouseMove_attached p s x y C). cbn [fst pending].
      now rewrite (clearRef_single H).
    - now rewrite (dispatch_MouseMove_detached p s x y C). }
  split; [now apply timers_fire_once|].
  clear H B. revert s. induction ids as [|id ids IH]; intros s cb I.
  - destruct I.
  - cbn [map] in I.
    rewrite (proj2 (run_cons p s (TimerFire id) (map TimerFire ids))) in I.
    apply in_app_or in I. destruct I as [I|I]; [|now apply IH in I].
    destruct (in_dec Nat.eq_dec id (pending s)) as [P|N].
    + rewrite (dispatch_TimerFire_pending p s id P) in I. cbn [snd] in I.
      unfold optList in I. destruct (onCenter p); [|destruct I].
      destruct I as [<-|[]]. reflexivity.
    + rewrite (dispatch_TimerFire_expired p s id N) in I. destruct I.
Qed.

Lemma single_idle_timer_witness :
  let p := defaults 1100 in
  let es := [MouseMove (Fin 100) (Fin 0); MouseMove (Fin 90) (Fin 10);
             TouchEnd; MouseMove (Fin 50) (Fin 50)] in
  let s := fst (run p (fst (mount p (Some (mkRect 0 0 100 100)))) es) in
  (length (pending s) <= 1)%nat /\
  (length (snd (run p s (map TimerFire [0; 1; 2; 3; 3; 4]%nat))) <= 1)%nat.
Proof.
  cbv zeta.
  pose proof (@single_idle_timer (defaults 1100)
    (Some (mkRect 0 0 100 100))
    [MouseMove (Fin 100) (Fin 0); MouseMove (Fin 90) (Fin 10);
     TouchEnd; MouseMove (Fin 50) (Fin 50)]
    [0; 1; 2; 3; 3; 4]%nat (Fin 0) (Fin 0)) as W.
  cbv zeta in W.
  destruct W as (A & _ & _ & _ & _ & B & _).
  split; [exact A|exact B].
Defined.

(** C9: mounting sets the pupil to [(0, 0)] and the grid position and offset
    to what [getBackgroundPosition(0, 0)] gives (with the defaults and a
    sprite [1100] wide: cell [(5, 5)], offset [(-500, -500)]), invokes no
    handler and starts no timer; afterwards, as long as no pointer or touch
    event arrives, nothing invokes a handler: no timer is pending, so none
    can fire, and layout changes are silent. *)
Theorem silent_mount (p : Props) (c : option Rect) (es : list Event) :
  forallb (fun e => negb (isPointerEvent e)) es = true ->
  let s0 := fst (mount p c) in
  let pos := getBackgroundPosition p (Fin 0) (Fin 0) in
  snd (mount p c) = [] /\
  currentPupil s0 = (Fin 0, Fin 0) /\
  isCentered (currentPupil s0) = true /\
  gridPosition s0 = (pos_col pos, pos_row pos) /\
  backgroundPosition s0 = (pos_x pos, pos_y pos) /\
  idleTimerRef s0 = None /\ pending s0 = [] /\
  snd (run p s0 es) = [] /\
  (let d := fst (mount (defaults 1100) c) in
   fst (gridPosition d) =n= Fin 5 /\ snd (gridPosition d) =n= Fin 5 /\
   fst (backgroundPosition d) =n= Fin (-500) /\
   snd (backgroundPosition d) =n= Fin (-500)).
Proof.
  intro Q. cbv zeta. rewrite !mount_state. cbn [fst snd].
  cbn [currentPupil gridPosition backgroundPosition idleTimerRef pending].
  repeat (split; [reflexivity|]).
  split; [|vm_compute; repeat split; reflexivity].
  now apply quiet_run.
Qed.

Lemma silent_mount_witness :
  let p := defaults 1100 in
  let c := Some (mkRect 0 0 100 100) in
  snd (mount p c) = [] /\
  snd (run p (fst (mount p c)) [TimerFire 0; Layout None; TimerFire 1]) = [].
Proof.
  cbv zeta.
  pose proof (@silent_mount (defaults 1100) (Some (mkRect 0 0 100 100))
                [TimerFire 0; Layout None; TimerFire 1]) as W.
  cbv zeta in W.
  destruct W as (A & _ & _ & _ & _ & _ & _ & B & _).
  - reflexivity.
  - split; [exact A|exact B].
Defined.

(* ================================================================= *)
(** * ROT13 and the XOR loop *)

Section Xor.

Local Open Scope Z_scope.

Lemma rot13_char_cases (c : Z) :
  (65 <= c <= 77 /\ rot13_char c = c + 13) \/
  (78 <= c <= 90 /\ rot13_char c = c - 13) \/
  (97 <= c <= 109 /\ rot13_char c = c + 13) \/
  (110 <= c <= 122 /\ rot13_char c = c - 13) \/
  ((c < 65 \/ 90 < c < 97 \/ 122 < c) /\ rot13_char c = c).
Proof.
  unfold rot13_char, fromCharCode.
  destruct (Z.leb_spec 65 c), (Z.leb_spec c 90), (Z.leb_spec 97 c),
    (Z.leb_spec c 122); cbn [andb orb]; zlia.
Qed.

Lemma rot13_char_involutive (c : Z) : rot13_char (rot13_char c) = c.
Proof.
  destruct (rot13_char_cases c) as [[H E]|[[H E]|[[H E]|[[H E]|[H E]]]]];
    rewrite E; [| | | |exact E];
    match goal with
    | |- rot13_char ?d = _ =>
        destruct (rot13_char_cases d)
          as [[H' ->]|[[H' ->]|[[H' ->]|[[H' ->]|[H' ->]]]]]
    end; lia.
Qed.

Lemma rot13_involutive (str : jsstring) : rot13 (rot13 str) = str.
Proof.
  unfold rot13. rewrite map_map.
  induction str as [|c str IH]; [reflexivity|].
  cbn [map]. now rewrite rot13_char_involutive, IH.
Qed.

Lemma lxor_byte (a b : Z) : isByte a -> isByte b -> isByte (Z.lxor a b).
Proof.
  unfold isByte. intros Ha Hb.
  assert (N : 0 <= Z.lxor a b) by (apply Z.lxor_nonneg; lia).
  split; [exact N|].
  destruct (Z.eq_dec (Z.lxor a b) 0) as [->|Z0]; [lia|].
  assert (L : Z.lxor a b < 2 ^ 8); [|lia].
  apply Z.log2_lt_pow2; [lia|].
  pose proof (Z.log2_lxor a b (proj1 Ha) (proj1 Hb)) as M.
  assert (La : Z.log2 a < 8).
  { destruct (Z.eq_dec a 0) as [->|]; [cbn; lia|].
    apply Z.log2_lt_pow2; lia. }
  assert (Lb : Z.log2 b < 8).
  { destruct (Z.eq_dec b 0) as [->|]; [cbn; lia|].
    apply Z.log2_lt_pow2; lia. }
  lia.
Qed.

Lemma toInt32_byte (c : Z) : isByte c -> toInt32 (Some c) = c.
Proof. unfold isByte, toInt32. intro H. zlia. Qed.

(** The key character used at a position is a byte, or NaN read as 0. *)
Lemma key_char_byte (key : jsstring) (i : Z) :
  Forall isByte key ->
  isByte (toInt32 (charCodeAt key (keyIndex i (Zlength key)))).
Proof.
  intro K. unfold charCodeAt.
  destruct (keyIndex i (Zlength key) <? 0); [cbn; unfold isByte; lia|].
  destruct (nth_error key (Z.to_nat (keyIndex i (Zlength key)))) as [k|] eqn:E.
  - apply nth_error_In in E. rewrite Forall_forall in K.
    rewrite toInt32_byte; now apply K.
  - cbn. unfold isByte. lia.
Qed.

Lemma land_255_mod (c : Z) : Z.land c 255 = c mod 256.
Proof.
  change 255 with (Z.ones 8). rewrite Z.land_ones by lia. reflexivity.
Qed.

Lemma land_255_byte (c : Z) : isByte c -> Z.land c 255 = c.
Proof. unfold isByte. intro H. rewrite land_255_mod. zlia. Qed.

Lemma land_255_isByte (c : Z) : isByte (Z.land c 255).
Proof. unfold isByte. rewrite land_255_mod. zlia. Qed.

Lemma latin1_bytes (s : jsstring) : Forall isByte (latin1 s).
Proof.
  unfold latin1. apply Forall_forall. intros c H.
  apply in_map_iff in H. destruct H as (x & <- & _). apply land_255_isByte.
Qed.

(** One step of the loop, undone by the same step. *)
Lemma xor_step_inverts (ch k : Z) :
  isByte ch -> isByte k ->
  let e := fromCharCode (Z.lxor (toInt32 (Some ch)) k) in
  isByte e /\ fromCharCode (Z.lxor (toInt32 (Some (Z.land e 255))) k) = ch.
Proof.
  intros Hc Hk. cbv zeta. rewrite (toInt32_byte Hc).
  pose proof (lxor_byte Hc Hk) as Hx.
  assert (F : forall x, isByte x -> fromCharCode x = x)
    by (unfold isByte, fromCharCode; intros; zlia).
  rewrite (F _ Hx). split; [exact Hx|].
  rewrite (land_255_byte Hx), (toInt32_byte Hx).
  rewrite Z.lxor_assoc, Z.lxor_nilpotent, Z.lxor_0_r.
  now apply F.
Qed.

Lemma xorLoop_inverts (key text : jsstring) (i : Z) :
  Forall isByte key -> Forall isByte text ->
  xorLoop key i (latin1 (xorLoop key i text)) = text.
Proof.
  intros K T. revert i. induction T as [|ch rest Hc _ IH]; intro i.
  - reflexivity.
  - cbn [xorLoop latin1 map]. unfold bitxor.
    destruct (xor_step_inverts Hc (key_char_byte i K)) as [_ E].
    cbv zeta in E. rewrite E. f_equal. apply IH.
Qed.

End Xor.

(* ================================================================= *)
(** * Base64 *)

Section Base64.

Local Open Scope Z_scope.

(** Induction three elements at a time. *)
Lemma list_ind3 (A : Type) (P : list A -> Prop) :
  P [] -> (forall a, P [a]) -> (forall a b, P [a; b]) ->
  (forall a b c rest, P rest -> P (a :: b :: c :: rest)) ->
  forall l, P l.
Proof.
  intros P0 P1 P2 P3 l.
  assert (H : P l /\ (forall a, P (a :: l)) /\ (forall a b, P (a :: b :: l))).
  { induction l as [|x l (IH0 & IH1 & IH2)].
    - repeat split; auto.
    - repeat split; auto. }
  exact (proj1 H).
Qed.

Lemma b64char_facts (v : Z) :
  isSextet v ->
  b64val (b64char v) = Some v /\
  isAsciiWhitespace (b64char v) = false /\
  b64char v <> 61.
Proof.
  unfold isSextet. intro H.
  assert (I : In v (map Z.of_nat (seq 0 64))).
  { apply in_map_iff. exists (Z.to_nat v). split; [lia|].
    apply in_seq. lia. }
  clear H. revert v I.
  apply Forall_forall. vm_compute.
  repeat (constructor; [repeat split; discriminate|]). constructor.
Qed.

Lemma sextetsOf_chars (vs : list Z) :
  Forall isSextet vs -> sextetsOf (map b64char vs) = Some vs.
Proof.
  induction 1 as [|v vs Hv _ IH]; [reflexivity|].
  cbn [map sextetsOf].
  now rewrite (proj1 (b64char_facts Hv)), IH.
Qed.

Lemma toSextets_spec (bs : list Z) :
  Forall isByte bs ->
  Forall isSextet (toSextets bs) /\
  fromSextets (toSextets bs) = bs /\
  exists k r : nat,
    length (toSextets bs) = (r + k * 4)%nat /\ (r = 0 \/ r = 2 \/ r = 3)%nat.
Proof.
  induction bs as [|a|a b|a b c rest IH] using list_ind3; intro H.
  - repeat split; [constructor|]. exists 0%nat, 0%nat. auto.
  - inversion_clear H as [|? ? Ha _]. unfold isByte in Ha.
    cbn [toSextets fromSextets]. split; [|split].
    + repeat constructor; unfold isSextet; zlia.
    + f_equal. zlia.
    + exists 0%nat, 2%nat. auto.
  - inversion_clear H as [|? ? Ha H']. inversion_clear H' as [|? ? Hb _].
    unfold isByte in Ha, Hb.
    cbn [toSextets fromSextets]. split; [|split].
    + repeat constructor; unfold isSextet; zlia.
    + f_equal; [zlia|]. f_equal. zlia.
    + exists 0%nat, 3%nat. auto.
  - inversion_clear H as [|? ? Ha H']. inversion_clear H' as [|? ? Hb H''].
    inversion_clear H'' as [|? ? Hc Hr].
    unfold isByte in Ha, Hb, Hc.
    destruct (IH Hr) as (S & F & k & r & L & R).
    cbn [toSextets fromSextets]. split; [|split].
    + repeat (constructor; [unfold isSextet; zlia|]). exact S.
    + rewrite F. f_equal; [zlia|]. f_equal; [zlia|]. f_equal. zlia.
    + exists (Datatypes.S k), r. cbn [length]. rewrite L. split; [lia|exact R].
Qed.

Lemma filter_keeps (l : jsstring) :
  Forall (fun c => isAsciiWhitespace c = false) l ->
  filter (fun c => negb (isAsciiWhitespace c)) l = l.
Proof.
  induction 1 as [|c l Hc _ IH]; [reflexivity|].
  cbn [filter]. now rewrite Hc, IH.
Qed.

Lemma dropPad_pad (l : jsstring) : dropPad (l ++ [61]) = l.
Proof.
  unfold dropPad. rewrite last_last, removelast_last. reflexivity.
Qed.

Lemma dropPad_chars (vs : list Z) :
  Forall isSextet vs -> dropPad (map b64char vs) = map b64char vs.
Proof.
  intro H. unfold dropPad.
  assert (L : last (map b64char vs) 0 <> 61).
  { induction H as [|v vs Hv Hvs IH]; [discriminate|].
    destruct vs as [|w vs]; [exact (proj2 (proj2 (b64char_facts Hv)))|].
    exact IH. }
  destruct (Z.eqb_spec (last (map b64char vs) 0) 61); [contradiction|reflexivity].
Qed.

(** [atob] undoes [toString('base64')] on every byte sequence. *)
Lemma atob_toBase64 (bs : list Z) :
  Forall isByte bs -> atob (toBase64 bs) = Some bs.
Proof.
  intro H. destruct (toSextets_spec H) as (S & F & k & r & L & R).
  unfold toBase64, atob.
  remember (toSextets bs) as vs eqn:Evs. clear Evs.
  assert (W : Forall (fun c => isAsciiWhitespace c = false) (map b64char vs)).
  { apply Forall_forall. intros c I. apply in_map_iff in I.
    destruct I as (v & <- & I). rewrite Forall_forall in S.
    exact (proj1 (proj2 (b64char_facts (S v I)))). }
  rewrite length_map, L, Nat.Div0.mod_add.
  assert (Lz : Zlength (map b64char vs) = Z.of_nat r + 4 * Z.of_nat k).
  { rewrite Zlength_correct, length_map, L. lia. }
  assert (Lp : forall pad : jsstring,
             Zlength (map b64char vs ++ pad)
             = Z.of_nat r + 4 * Z.of_nat k + Z.of_nat (length pad)).
  { intro pad. rewrite Zlength_correct, length_app, length_map, L. lia. }
  assert (D : option_map fromSextets (sextetsOf (map b64char vs)) = Some bs)
    by now rewrite (sextetsOf_chars S), <- F.
  destruct R as [-> | [-> | ->]];
    cbn [Nat.modulo Nat.divmod Nat.sub fst snd repeat].
  - rewrite app_nil_r, (filter_keeps W), Lz.
    replace ((Z.of_nat 0 + 4 * Z.of_nat k) mod 4 =? 0) with true
      by (symmetry; apply Z.eqb_eq; zlia).
    rewrite !(dropPad_chars S), Lz.
    replace ((Z.of_nat 0 + 4 * Z.of_nat k) mod 4 =? 1) with false
      by (symmetry; apply Z.eqb_neq; zlia).
    exact D.
  - rewrite filter_keeps
      by (apply Forall_app; split; [exact W|repeat constructor]).
    rewrite Lp. cbn [length].
    replace ((Z.of_nat 2 + 4 * Z.of_nat k + Z.of_nat 2) mod 4 =? 0)
      with true by (symmetry; apply Z.eqb_eq; zlia).
    change (map b64char vs ++ [61; 61])
      with (map b64char vs ++ [61] ++ [61]).
    rewrite app_assoc, !dropPad_pad, Lz.
    replace ((Z.of_nat 2 + 4 * Z.of_nat k) mod 4 =? 1) with false
      by (symmetry; apply Z.eqb_neq; zlia).
    exact D.
  - rewrite filter_keeps
      by (apply Forall_app; split; [exact W|repeat constructor]).
    rewrite Lp. cbn [length].
    replace ((Z.of_nat 3 + 4 * Z.of_nat k + Z.of_nat 1) mod 4 =? 0)
      with true by (symmetry; apply Z.eqb_eq; zlia).
    rewrite dropPad_pad, (dropPad_chars S), Lz.
    replace ((Z.of_nat 3 + 4 * Z.of_nat k) mod 4 =? 1) with false
      by (symmetry; apply Z.eqb_neq; zlia).
    exact D.
Qed.

End Base64.

(* ================================================================= *)
(** * The e-mail link *)

Section Email.

Local Open Scope Z_scope.

(** C10: for every e-mail string and every non-empty key string that both
    consist of characters with code points in [[0, 255]], feeding the two
    outputs of the generator, the Base64 data and the ROT13 key, to the
    decryption of [handleClick] gives the e-mail string back, and the page is
    sent to [mailto:] followed by it.  The script prints these outputs
    unless the e-mail string is empty, in which case it exits with the usage
    message. *)
Theorem decrypt_inverts_obfuscate (email key : jsstring) :
  Forall isByte email -> Forall isByte key -> key <> [] ->
  let encryptedData := fst (obfuscate email key) in
  let encodedKey := snd (obfuscate email key) in
  decrypted encryptedData encodedKey = Some email /\
  handleClick encryptedData encodedKey = Some (mailto ++ email) /\
  match script email key with
  | Some (data, k) =>
      decrypted data k = Some email /\
      handleClick data k = Some (mailto ++ email)
  | None => email = []
  end.
Proof.
  intros He Hk Hn. cbv zeta.
  assert (D : decrypted (fst (obfuscate email key)) (snd (obfuscate email key))
              = Some email).
  { unfold obfuscate, decrypted. cbn [fst snd].
    rewrite rot13_involutive, (atob_toBase64 (latin1_bytes _)).
    now rewrite (xorLoop_inverts 0 Hk He). }
  assert (C : handleClick (fst (obfuscate email key)) (snd (obfuscate email key))
              = Some (mailto ++ email))
    by (unfold handleClick; now rewrite D).
  split; [exact D|]. split; [exact C|].
  unfold script. destruct email as [|c email]; [reflexivity|].
  destruct key as [|k key]; [contradiction|].
  destruct (obfuscate (c :: email) (k :: key)) as [data ek]. now split.
Qed.

Lemma decrypt_inverts_obfuscate_witness :
  let email := [106; 97; 107; 111; 98; 64; 119; 101; 115; 116; 104; 111; 102;
                102; 115; 119; 101; 108; 116; 46; 100; 101] in
  let key := [83; 101; 99; 117; 114; 101; 75; 101; 121; 49; 50; 51] in
  decrypted (fst (obfuscate email key)) (snd (obfuscate email key))
  = Some email.
Proof.
  cbv zeta.
  refine (proj1 (@decrypt_inverts_obfuscate
    [106; 97; 107; 111; 98; 64; 119; 101; 115; 116; 104; 111; 102;
     102; 115; 119; 101; 108; 116; 46; 100; 101]
    [83; 101; 99; 117; 114; 101; 75; 101; 121; 49; 50; 51] _ _ _)).
  - repeat constructor; unfold isByte; lia.
  - repeat constructor; unfold isByte; lia.
  - discriminate.
Defined.

End Email.

(* ================================================================= *)
(** * Further properties of the quantisation *)

Section Quantisation.

Lemma qclamp_mono (x y lo hi : Q) :
  x <= y -> qclamp x lo hi <= qclamp y lo hi.
Proof.
  intro H.
  destruct (qclamp_cases x lo hi) as [(?&?&->)|[(?&?&->)|([?|?]&->)]];
    destruct (qclamp_cases y lo hi) as [(?&?&->)|[(?&?&->)|([?|?]&->)]];
    lra.
Qed.

Lemma qraw_mono (lo hi v w : Q) :
  lo <= hi -> v <= w -> qraw lo hi v <= qraw lo hi w.
Proof.
  intros H L. unfold qraw.
  assert (A : (v + 1) * (hi + - lo) <= (w + 1) * (hi + - lo)) by nra.
  revert A.
  generalize ((v + 1) * (hi + - lo)), ((w + 1) * (hi + - lo)). intros a b A.
  unfold Qdiv. setoid_replace (/ 2) with (1 # 2) by reflexivity. lra.
Qed.

Lemma qquantize_mono (p : Props) (v w : Q) :
  ~ step p == 0 -> v <= w -> qquantize p v <= qquantize p w.
Proof.
  intros Hs L. unfold qquantize.
  destruct (Qlt_le_dec (maxValue p) (minValue p)) as [C|C].
  - destruct (qclamp_cases (qsnap (step p) (qraw (minValue p) (maxValue p) v))
                (minValue p) (maxValue p)) as [(?&?&->)|[(?&?&->)|(?&->)]];
      destruct (qclamp_cases (qsnap (step p) (qraw (minValue p) (maxValue p) w))
                  (minValue p) (maxValue p)) as [(?&?&->)|[(?&?&->)|(?&->)]];
      lra.
  - apply qclamp_mono, (qsnap_mono Hs), qraw_mono; assumption.
Qed.

(** [clamp((a - c) / h, -1, 1)] grows with [a]. *)
Lemma normalized_x_mono (c h x1 x2 : Q) :
  0 < h -> x1 <= x2 ->
  exists n1 n2 : Q,
    clamp (div (sub (Fin x1) (Fin c)) (Fin h)) (Fin (-1)) (Fin 1) = Fin n1 /\
    clamp (div (sub (Fin x2) (Fin c)) (Fin h)) (Fin (-1)) (Fin 1) = Fin n2 /\
    n1 <= n2.
Proof.
  intros Hh L. assert (Hn : ~ h == 0) by lra.
  cbn [sub neg add]. rewrite !(div_fin _ Hn), !clamp_fin.
  eexists. eexists. split; [reflexivity|]. split; [reflexivity|].
  apply qclamp_mono, Qdiv_mono_pos; lra.
Qed.

(** [clamp((c - a) / h, -1, 1)] shrinks as [a] grows. *)
Lemma normalized_y_anti (c h y1 y2 : Q) :
  0 < h -> y1 <= y2 ->
  exists n1 n2 : Q,
    clamp (div (sub (Fin c) (Fin y1)) (Fin h)) (Fin (-1)) (Fin 1) = Fin n1 /\
    clamp (div (sub (Fin c) (Fin y2)) (Fin h)) (Fin (-1)) (Fin 1) = Fin n2 /\
    n2 <= n1.
Proof.
  intros Hh L. assert (Hn : ~ h == 0) by lra.
  cbn [sub neg add]. rewrite !(div_fin _ Hn), !clamp_fin.
  eexists. eexists. split; [reflexivity|]. split; [reflexivity|].
  apply qclamp_mono, Qdiv_mono_pos; lra.
Qed.

(** X1: over a region of positive width and height and for a non-zero step,
    the pupil follows the pointer monotonically: a pointer further to the
    right never gives a smaller horizontal pupil value, and a pointer further
    down never gives a larger vertical one (the Y axis is inverted). *)
Theorem pupil_follows_pointer
  (p : Props) (rect : Rect) (x1 x2 y1 y2 : Q) (x y : num) :
  ~ step p == 0 -> 0 < width rect -> 0 < height rect ->
  x1 <= x2 -> y1 <= y2 ->
  finLe (fst (pupilOf p rect (Fin x1) y)) (fst (pupilOf p rect (Fin x2) y)) /\
  finLe (snd (pupilOf p rect x (Fin y2))) (snd (pupilOf p rect x (Fin y1))).
Proof.
  intros Hs Hw Hh Lx Ly. unfold pupilOf, clampedPointer. cbn [fst snd].
  assert (T : ~ 2 == 0) by (intro E; discriminate E).
  rewrite !(div_fin _ T). cbn [add].
  assert (W : 0 < width rect / 2) by (apply Qlt_shift_div_l; lra).
  assert (H : 0 < height rect / 2) by (apply Qlt_shift_div_l; lra).
  destruct (normalized_x_mono (left rect + width rect / 2) W Lx)
    as (a1 & a2 & -> & -> & La).
  destruct (normalized_y_anti (top rect + height rect / 2) H Ly)
    as (b1 & b2 & -> & -> & Lb).
  rewrite !(quantizeToGrid_fin _ _ Hs). cbn [finLe].
  split; now apply qquantize_mono.
Qed.

Lemma pupil_follows_pointer_witness :
  let p := defaults 1100 in
  let rect := mkRect 0 0 100 100 in
  finLe (fst (pupilOf p rect (Fin 20) NaN)) (fst (pupilOf p rect (Fin 70) NaN)) /\
  finLe (snd (pupilOf p rect PInf (Fin 90))) (snd (pupilOf p rect PInf (Fin 10))).
Proof.
  apply (@pupil_follows_pointer (defaults 1100) (mkRect 0 0 100 100)
           20 70 10 90 NaN PInf).
  - simpl. lra.
  - simpl. lra.
  - simpl. lra.
  - lra.
  - lra.
Defined.

(** X3: for a positive step, a grid of [n + 1 >= 2] values with
    [gridSize == (maxValue - minValue) / step + 1] and [minValue] a multiple
    of [step], every grid value is reached: the normalised input
    [-1 + 2 k / n] is quantised to [minValue + k * step], and
    [getBackgroundPosition] resolves that pupil value to column (and row)
    [k]. *)
Theorem every_cell_is_reached (p : Props) (n m k : Z) :
  0 < step p ->
  gridSize p == (maxValue p - minValue p) / step p + 1 ->
  (0 < n)%Z -> gridSize p == inject_Z n + 1 ->
  minValue p == inject_Z m * step p ->
  (0 <= k <= n)%Z ->
  let v := -1 + 2 * inject_Z k / inject_Z n in
  let pupil := quantizeToGrid p (Fin v) in
  -1 <= v <= 1 /\
  pupil =n= Fin (minValue p + inject_Z k * step p) /\
  pos_col (getBackgroundPosition p pupil pupil) =n= Fin (inject_Z k) /\
  pos_row (getBackgroundPosition p pupil pupil) =n= Fin (inject_Z k).
Proof.
  intros Hs Hg Hn Hgn Hm Hk. cbv zeta.
  assert (Hs' : ~ step p == 0) by lra.
  assert (Nq : 0 < inject_Z n) by (change 0 with (inject_Z 0); now rewrite <- Zlt_Qlt).
  assert (Kq : 0 <= inject_Z k <= inject_Z n)
    by (change 0 with (inject_Z 0); rewrite <- !Zle_Qle; lia).
  rewrite (quantizeToGrid_fin _ _ Hs').
  remember (-1 + 2 * inject_Z k / inject_Z n) as v eqn:Ev.
  assert (V : (v + 1) * inject_Z n == 2 * inject_Z k)
    by (rewrite Ev; field; lra).
  assert (Vr : -1 <= v <= 1) by (split; nra).
  clear Ev.
  assert (D : maxValue p + - minValue p == inject_Z n * step p).
  { assert (E : (maxValue p - minValue p) / step p == inject_Z n) by lra.
    rewrite <- E. field. exact Hs'. }
  assert (Q : qquantize p v == minValue p + inject_Z k * step p).
  { unfold qquantize.
    assert (R : qraw (minValue p) (maxValue p) v / step p == inject_Z (m + k)).
    { unfold qraw. rewrite inject_Z_plus, D.
      setoid_replace ((v + 1) * (inject_Z n * step p))
        with (2 * inject_Z k * step p) by (rewrite <- V; ring).
      rewrite Hm at 1. field. exact Hs'. }
    unfold qsnap. rewrite (qround_Z R), inject_Z_plus.
    destruct (qclamp_cases ((inject_Z m + inject_Z k) * step p)
                (minValue p) (maxValue p))
      as [(A & B & ->)|[(A & B & ->)|([A|A] & ->)]]; nra. }
  split; [exact Vr|]. split; [exact Q|].
  assert (C : forall a,
    pos_col (getBackgroundPosition p (Fin (qquantize p v)) a) =n= Fin (inject_Z k)).
  { intro a. unfold getBackgroundPosition. cbn [pos_col sub neg add].
    rewrite (div_fin _ Hs'). cbn [round].
    assert (I : qround ((qquantize p v + - minValue p) / step p) = k).
    { apply qround_Z. rewrite Q. field. exact Hs'. }
    unfold qround in I. rewrite I.
    change (max (Fin 0) (min (Fin (gridSize p + - (1))) (Fin (inject_Z k))))
      with (clamp (Fin (inject_Z k)) (Fin 0) (Fin (gridSize p + - (1)))).
    rewrite clamp_fin. cbn [num_eq].
    destruct (qclamp_cases (inject_Z k) 0 (gridSize p + - (1)))
      as [(A & B & ->)|[(A & B & ->)|([A|A] & ->)]]; lra. }
  split; [apply C|].
  unfold getBackgroundPosition. cbn [pos_row].
  exact (C (Fin 0)).
Qed.

Lemma every_cell_is_reached_witness :
  let p := defaults 1100 in
  let pupil := quantizeToGrid p (Fin (-1 + 2 * inject_Z 7 / inject_Z 10)) in
  pupil =n= Fin (-15 + inject_Z 7 * 3) /\
  pos_col (getBackgroundPosition p pupil pupil) =n= Fin (inject_Z 7).
Proof.
  cbv zeta.
  pose proof (@every_cell_is_reached (defaults 1100) 10 (-5) 7) as W.
  cbv zeta in W.
  destruct W as (_ & A & B & _).
  - simpl. lra.
  - reflexivity.
  - lia.
  - reflexivity.
  - reflexivity.
  - lia.
  - split; [exact A|exact B].
Defined.

Lemma index_shape (m s : Q) (a : num) :
  ~ s == 0 -> isNaN a = false ->
  (exists z : Z, round (div (sub a (Fin m)) (Fin s)) = Fin (inject_Z z)) \/
  round (div (sub a (Fin m)) (Fin s)) = PInf \/
  round (div (sub a (Fin m)) (Fin s)) = NInf.
Proof.
  intros Hs Ha. destruct a as [x| | |]; try discriminate; cbn [sub neg add].
  - rewrite (div_fin _ Hs). left. eexists. reflexivity.
  - cbn [div]. destruct (s ?= 0); cbn [round]; auto.
  - cbn [div]. destruct (s ?= 0); cbn [round]; auto.
Qed.

Lemma clamped_index_integer (g : Q) (n : Z) (index : num) :
  (0 <= n)%Z -> g == inject_Z n + 1 ->
  (exists z : Z, index = Fin (inject_Z z)) \/ index = PInf \/ index = NInf ->
  exists (c : Z) (q : Q),
    (0 <= c <= n)%Z /\ q == inject_Z c /\
    max (Fin 0) (min (sub (Fin g) (Fin 1)) index) = Fin q.
Proof.
  intros Hn Hg H.
  assert (Hq : 0 <= inject_Z n)
    by (change 0 with (inject_Z 0); now rewrite <- Zle_Qle).
  destruct H as [(z & ->)|[->| ->]].
  - change (max (Fin 0) (min (sub (Fin g) (Fin 1)) (Fin (inject_Z z))))
      with (clamp (Fin (inject_Z z)) (Fin 0) (Fin (g + - 1))).
    rewrite clamp_fin.
    destruct (qclamp_cases (inject_Z z) 0 (g + - 1))
      as [(A & B & ->)|[(A & B & ->)|(A & ->)]].
    + exists n. eexists. split; [|split; [|reflexivity]]; [lia|lra].
    + exists z. eexists. split; [|split; reflexivity].
      assert (U : inject_Z z < inject_Z n + 1) by lra.
      change 1 with (inject_Z 1) in U. rewrite <- inject_Z_plus in U.
      change 0 with (inject_Z 0) in A.
      rewrite <- Zle_Qle in A. rewrite <- Zlt_Qlt in U. lia.
    + exists 0%Z. eexists. split; [lia|split; reflexivity].
  - unfold max, min, sub, add, neg, leb.
    match goal with
    | |- context [Qle_bool ?a ?b] => destruct (Qle_bool a b) eqn:E
    end.
    + exists n. eexists. split; [|split; [|reflexivity]]; [lia|lra].
    + apply Qle_bool_false in E. lra.
  - exists 0%Z. eexists. split; [lia|split; reflexivity].
Qed.

Lemma offset_of_column (p : Props) (n c : Z) (q : Q) :
  (0 <= n)%Z -> gridSize p == inject_Z n + 1 -> 0 <= spriteWidth p ->
  (0 <= c <= n)%Z -> q == inject_Z c ->
  within (- spriteWidth p) 0
    (neg (mul (Fin q) (div (Fin (spriteWidth p)) (Fin (gridSize p))))).
Proof.
  intros Hn Hg Hw Hc Hq.
  rewrite Zle_Qle in Hn. change (inject_Z 0) with 0 in Hn.
  assert (G : ~ gridSize p == 0) by lra.
  assert (Cq : 0 <= inject_Z c <= inject_Z n)
    by (change 0 with (inject_Z 0); rewrite <- !Zle_Qle; lia).
  rewrite (div_fin _ G). cbn [mul neg].
  assert (T : gridSize p * (spriteWidth p / gridSize p) == spriteWidth p)
    by (field; exact G).
  remember (spriteWidth p / gridSize p) as t eqn:Et. clear Et.
  assert (T0 : 0 <= t) by nra.
  eexists. split; [reflexivity|]. rewrite Hq. split; nra.
Qed.

(** X4: for a non-zero step, a grid size that is a positive integer and a
    non-negative sprite width, every pupil other than NaN resolves to an
    integer column and row between [0] and [gridSize - 1], and the offset on
    each axis lies between [-spriteWidth] and [0]: the sprite is shifted to
    the left and upwards only, and by no more than its width. *)
Theorem offset_inside_sprite (p : Props) (n : Z) (pupilX pupilY : num) :
  ~ step p == 0 -> (0 <= n)%Z -> gridSize p == inject_Z n + 1 ->
  0 <= spriteWidth p ->
  isNaN pupilX = false -> isNaN pupilY = false ->
  let pos := getBackgroundPosition p pupilX pupilY in
  (exists col row : Z,
     (0 <= col <= n)%Z /\ (0 <= row <= n)%Z /\
     pos_col pos =n= Fin (inject_Z col) /\
     pos_row pos =n= Fin (inject_Z row)) /\
  within (- spriteWidth p) 0 (pos_x pos) /\
  within (- spriteWidth p) 0 (pos_y pos).
Proof.
  intros Hs Hn Hg Hw Hx Hy. cbv zeta. unfold getBackgroundPosition.
  cbn [pos_col pos_row pos_x pos_y].
  destruct (clamped_index_integer Hn Hg
              (@index_shape (minValue p) (step p) pupilX Hs Hx))
    as (c & qc & Hc & Ec & ->).
  destruct (clamped_index_integer Hn Hg
              (@index_shape (minValue p) (step p) pupilY Hs Hy))
    as (r & qr & Hr & Er & ->).
  split.
  - exists c, r. split; [exact Hc|]. split; [exact Hr|].
    split; [exact Ec|exact Er].
  - split.
    + exact (offset_of_column p Hn Hg Hw Hc Ec).
    + exact (offset_of_column p Hn Hg Hw Hr Er).
Qed.

Lemma offset_inside_sprite_witness :
  let pos := getBackgroundPosition (defaults 1100) (Fin 7) PInf in
  (exists col row : Z,
     (0 <= col <= 10)%Z /\ (0 <= row <= 10)%Z /\
     pos_col pos =n= Fin (inject_Z col) /\
     pos_row pos =n= Fin (inject_Z row)) /\
  within (- 1100) 0 (pos_x pos) /\
  within (- 1100) 0 (pos_y pos).
Proof.
  apply (@offset_inside_sprite (defaults 1100) 10 (Fin 7) PInf).
  - simpl. lra.
  - lia.
  - reflexivity.
  - simpl. lra.
  - reflexivity.
  - reflexivity.
Defined.

End Quantisation.

(* ================================================================= *)
(** * Invariants of the position cells *)

Section Position.

Variable p : Props.

Lemma consistent_cells (s s' : State) :
  displayed s' = displayed s -> consistent p s -> consistent p s'.
Proof.
  unfold displayed, consistent. intro E. injection E as Ep Eg Eb.
  now rewrite Ep, Eg, Eb.
Qed.

Lemma dispatch_displayed (s : State) (e : Event) :
  (exists rect x y,
     containerRef s = Some rect /\
     currentPupil (fst (dispatch p s e)) = pupilOf p rect x y /\
     consistent p (fst (dispatch p s e)) /\
     match e with
     | MouseMove a b => (a, b) = (x, y)
     | TouchMove ts => exists rest, ts = (x, y) :: rest
     | _ => False
     end) \/
  displayed (fst (dispatch p s e)) = displayed s.
Proof.
  assert (Move : forall x y,
    (exists rect,
       containerRef s = Some rect /\
       currentPupil (fst (dispatch p s (MouseMove x y))) = pupilOf p rect x y /\
       consistent p (fst (dispatch p s (MouseMove x y)))) \/
    displayed (fst (dispatch p s (MouseMove x y))) = displayed s).
  { intros x y. destruct (containerRef s) as [rect|] eqn:C.
    - left. exists rect. rewrite (dispatch_MouseMove_attached p s x y C).
      split; [reflexivity|]. split; [reflexivity|].
      unfold consistent. cbn [fst currentPupil gridPosition backgroundPosition].
      split; reflexivity.
    - right. now rewrite (dispatch_MouseMove_detached p s x y C). }
  destruct e as [x y|[|[x y] rest]| |id|c].
  - destruct (Move x y) as [(rect & C & P & K)|D]; [left|now right].
    exists rect, x, y. auto.
  - right. reflexivity.
  - rewrite dispatch_TouchMove_cons.
    destruct (Move x y) as [(rect & C & P & K)|D]; [left|now right].
    exists rect, x, y. split; [exact C|]. split; [exact P|].
    split; [exact K|]. now exists rest.
  - right. now rewrite dispatch_TouchEnd.
  - right. destruct (in_dec Nat.eq_dec id (pending s)) as [I|N].
    + now rewrite (dispatch_TimerFire_pending p s id I).
    + now rewrite (dispatch_TimerFire_expired p s id N).
  - right. reflexivity.
Qed.

Lemma run_consistent (es : list Event) (s : State) :
  consistent p s -> consistent p (fst (run p s es)).
Proof.
  revert s. induction es as [|e es IH]; intros s H; [exact H|].
  rewrite (proj1 (run_cons p s e es)). apply IH.
  destruct (dispatch_displayed s e) as [(rect & x & y & _ & _ & K & _)|D].
  - exact K.
  - exact (consistent_cells D H).
Qed.

Lemma dispatch_container (s : State) (e : Event) :
  containerRef (fst (dispatch p s e))
  = match e with
    | Layout c => c
    | _ => containerRef s
    end.
Proof.
  assert (Move : forall x y,
    containerRef (fst (dispatch p s (MouseMove x y))) = containerRef s).
  { intros x y. destruct (containerRef s) as [rect|] eqn:C.
    - now rewrite (dispatch_MouseMove_attached p s x y C).
    - now rewrite (dispatch_MouseMove_detached p s x y C). }
  destruct e as [x y|[|[x y] rest]| |id|c]; try reflexivity.
  - apply Move.
  - rewrite dispatch_TouchMove_cons. apply Move.
  - now rewrite dispatch_TouchEnd.
  - destruct (in_dec Nat.eq_dec id (pending s)) as [I|N].
    + now rewrite (dispatch_TimerFire_pending p s id I).
    + now rewrite (dispatch_TimerFire_expired p s id N).
Qed.

Lemma run_in_range (es : list Event) (s : State) :
  ~ step p == 0 -> minValue p <= maxValue p ->
  Forall wellFormed es -> measurable (containerRef s) ->
  within (minValue p) (maxValue p) (fst (currentPupil s)) ->
  within (minValue p) (maxValue p) (snd (currentPupil s)) ->
  within (minValue p) (maxValue p) (fst (currentPupil (fst (run p s es)))) /\
  within (minValue p) (maxValue p) (snd (currentPupil (fst (run p s es)))).
Proof.
  intros Hs Hlh W. revert s.
  induction W as [|e es We _ IH]; intros s M Px Py; [now split|].
  rewrite (proj1 (run_cons p s e es)).
  assert (M' : measurable (containerRef (fst (dispatch p s e)))).
  { rewrite dispatch_container. destruct e; auto. }
  destruct (dispatch_displayed s e) as [(rect & x & y & C & P & _ & E)|D].
  - rewrite C in M. destruct M as [Mw Mh].
    assert (N : isNaN x = false /\ isNaN y = false).
    { destruct e as [a b|ts| | |]; try contradiction.
      - injection E as -> ->. exact We.
      - destruct E as (rest & ->). exact We. }
    destruct (clampedPointer_within rect x y Mw Mh (proj1 N) (proj2 N))
      as [Wx Wy].
    apply IH; [exact M'| |]; rewrite P; unfold pupilOf; cbn [fst snd];
      now apply quantizeToGrid_within.
  - unfold displayed in D. injection D as Dp _ _.
    apply IH; [exact M'| |]; now rewrite Dp.
Qed.

End Position.

(** X5: in every state the mounted component reaches, whatever the events,
    the three position cells agree: the grid position and the background
    offset are those [getBackgroundPosition] gives for the stored pupil. *)
Theorem position_cells_agree (p : Props) (c : option Rect) (es : list Event) :
  consistent p (fst (run p (fst (mount p c)) es)).
Proof.
  apply run_consistent. rewrite mount_state. unfold consistent.
  cbn [fst snd currentPupil gridPosition backgroundPosition].
  split; reflexivity.
Qed.

(** X6: for a non-zero step, [minValue <= 0 <= maxValue] and at least one
    grid cell, as long as no coordinate is NaN and the tracking region, when
    attached, has a positive width and height, the stored pupil stays finite
    and within [[minValue, maxValue]] and the stored grid position within
    [[0, gridSize - 1]], in every state the component reaches. *)
Theorem reachable_position_in_range
  (p : Props) (c : option Rect) (es : list Event) :
  ~ step p == 0 -> minValue p <= 0 <= maxValue p -> 1 <= gridSize p ->
  measurable c -> Forall wellFormed es ->
  let s := fst (run p (fst (mount p c)) es) in
  within (minValue p) (maxValue p) (fst (currentPupil s)) /\
  within (minValue p) (maxValue p) (snd (currentPupil s)) /\
  within 0 (gridSize p - 1) (fst (gridPosition s)) /\
  within 0 (gridSize p - 1) (snd (gridPosition s)).
Proof.
  intros Hs [Hl Hh] Hg M W. cbv zeta.
  assert (Z : within (minValue p) (maxValue p) (Fin 0))
    by (exists 0; split; [reflexivity|lra]).
  assert (R : within (minValue p) (maxValue p)
                (fst (currentPupil (fst (run p (fst (mount p c)) es)))) /\
              within (minValue p) (maxValue p)
                (snd (currentPupil (fst (run p (fst (mount p c)) es))))).
  { apply run_in_range; auto; try lra; rewrite mount_state; auto. }
  destruct R as [Rx Ry]. split; [exact Rx|]. split; [exact Ry|].
  destruct (position_cells_agree p c es) as [G _]. rewrite G. cbn [fst snd].
  destruct Rx as (qx & Ex & _), Ry as (qy & Ey & _).
  apply grid_coordinate_in_range; auto; [rewrite Ex|rewrite Ey]; reflexivity.
Qed.

Lemma reachable_position_in_range_witness :
  let p := defaults 1100 in
  let s := fst (run p (fst (mount p (Some (mkRect 0 0 100 100))))
                  [MouseMove (Fin 400) NInf; Layout (Some (mkRect 5 5 20 30));
                   TouchMove [(Fin 7, Fin 9); (NaN, NaN)]; TimerFire 1]) in
  within (-15) 15 (fst (currentPupil s)) /\
  within (-15) 15 (snd (currentPupil s)) /\
  within 0 (11 - 1) (fst (gridPosition s)) /\
  within 0 (11 - 1) (snd (gridPosition s)).
Proof.
  apply (@reachable_position_in_range (defaults 1100)
           (Some (mkRect 0 0 100 100))
           [MouseMove (Fin 400) NInf; Layout (Some (mkRect 5 5 20 30));
            TouchMove [(Fin 7, Fin 9); (NaN, NaN)]; TimerFire 1]).
  - simpl. lra.
  - simpl. lra.
  - simpl. lra.
  - simpl. lra.
  - repeat constructor; simpl; lra.
Defined.

(* ================================================================= *)
(** * Teardown *)

Section Teardown.

Variable p : Props.

Lemma deliver_listening (h : Host) (e : Event) :
  listening h = true ->
  deliver p h e
  = (mkHost (fst (dispatch p (component h) e)) true,
     snd (dispatch p (component h) e)).
Proof.
  intro L. unfold deliver. rewrite L, andb_false_r.
  now destruct (dispatch p (component h) e).
Qed.

Lemma deliverAll_listening (es : list Event) (h : Host) :
  listening h = true ->
  deliverAll p h es
  = (mkHost (fst (run p (component h) es)) true,
     snd (run p (component h) es)).
Proof.
  revert h. induction es as [|e es IH]; intros h L.
  - destruct h as [s l]. cbn in L. subst l. reflexivity.
  - cbn [deliverAll]. rewrite (deliver_listening h e L).
    rewrite IH by reflexivity. cbn [component].
    destruct (run_cons p (component h) e es) as [-> ->]. reflexivity.
Qed.

Lemma cleanup_state (h : Host) :
  cleanup h
  = mkHost (mkState (backgroundPosition (component h))
                    (gridPosition (component h)) (currentPupil (component h))
                    (containerRef (component h)) (idleTimerRef (component h))
                    (clearRef (idleTimerRef (component h))
                       (pending (component h)))
                    (nextTimer (component h)))
           false.
Proof.
  unfold cleanup, clearIdleTimer, clearRef, bind, get. cbn beta iota.
  destruct (component h) as [bg grid pupil cont [id|] pend next]; reflexivity.
Qed.

(** Once the listeners are gone and no timer is pending, nothing is
    invoked any more. *)
Lemma deliverAll_silent (es : list Event) (h : Host) :
  listening h = false -> pending (component h) = [] ->
  snd (deliverAll p h es) = [] /\
  pending (component (fst (deliverAll p h es))) = [] /\
  displayed (component (fst (deliverAll p h es))) = displayed (component h).
Proof.
  revert h. induction es as [|e es IH]; intros h L E; [now repeat split|].
  cbn [deliverAll].
  assert (D : exists h', deliver p h e = (h', []) /\ listening h' = false /\
                pending (component h') = [] /\
                displayed (component h') = displayed (component h)).
  { unfold deliver. rewrite L.
    destruct e as [x y|ts| |id|c]; cbn [isPointerEvent negb andb].
    - now exists h.
    - now exists h.
    - now exists h.
    - assert (N : ~ In id (pending (component h))) by (rewrite E; intros []).
      rewrite (dispatch_TimerFire_expired p _ id N).
      destruct h as [s l]. cbn in L. subst l. eexists. now repeat split.
    - rewrite dispatch_Layout. eexists. repeat split; auto. }
  destruct D as (h' & -> & L' & E' & D').
  destruct (IH h' L' E') as (A & B & C).
  destruct (deliverAll p h' es) as [h2 l2]. cbn [fst snd] in *.
  subst l2. repeat split; auto. congruence.
Qed.

End Teardown.

(** X8: after the cleanup of the effect, no handler is ever invoked again:
    whatever events preceded the teardown and whatever the host delivers
    afterwards (pointer and touch events find no listener, and no timer is
    left to fire), the log stays empty and the position cells stay as they
    were. *)
Theorem nothing_after_teardown
  (p : Props) (c : option Rect) (before after : list Event) :
  let h := cleanup (fst (deliverAll p (fst (attach p c)) before)) in
  listening h = false /\
  pending (component h) = [] /\
  snd (deliverAll p h after) = [] /\
  displayed (component (fst (deliverAll p h after))) = displayed (component h).
Proof.
  cbv zeta.
  assert (A : attach p c = (mkHost (fst (mount p c)) true, snd (mount p c))).
  { unfold attach, setup, mount.
    now destruct (updatePupilPosition p (Fin 0) (Fin 0) false (initialState c))
      as [[u s] l]. }
  rewrite A. cbn [fst]. rewrite deliverAll_listening by reflexivity.
  cbn [fst component]. rewrite cleanup_state. cbn [listening component].
  destruct (mount_single p c) as [H0 B0].
  destruct (run_single p before H0 B0) as [H _].
  assert (E : clearRef (idleTimerRef (fst (run p (fst (mount p c)) before)))
                (pending (fst (run p (fst (mount p c)) before))) = [])
    by now apply clearRef_single.
  split; [reflexivity|]. split; [exact E|].
  match goal with
  | |- context [deliverAll p ?h after] =>
      destruct (@deliverAll_silent p after h eq_refl E) as (S1 & _ & S3)
  end.
  split; [exact S1|exact S3].
Qed.

(** X9: when the effect is run again (its dependency [idleTimeout]
    changed), in whatever state the component is, the pupil is put back to
    [(0, 0)] with the matching grid position and offset, the listeners are
    registered, no timer is left pending, and no handler is invoked: the
    parent is not told that the gaze was centred. *)
Theorem effect_rerun_is_silent
  (p : Props) (c : option Rect) (es : list Event) :
  let h := fst (deliverAll p (fst (attach p c)) es) in
  let h' := fst (rerunEffect p h) in
  snd (rerunEffect p h) = [] /\
  listening h' = true /\
  pending (component h') = [] /\
  displayed (component h') = displayed (fst (mount p c)).
Proof.
  cbv zeta.
  assert (A : attach p c = (mkHost (fst (mount p c)) true, snd (mount p c))).
  { unfold attach, setup, mount.
    now destruct (updatePupilPosition p (Fin 0) (Fin 0) false (initialState c))
      as [[u s] l]. }
  rewrite A. cbn [fst]. rewrite deliverAll_listening by reflexivity.
  cbn [fst component]. unfold rerunEffect, setup.
  rewrite cleanup_state. cbn [component].
  rewrite updatePupilPosition_run. cbn [fst snd listening component pending].
  destruct (mount_single p c) as [H0 B0].
  destruct (run_single p es H0 B0) as [H _].
  rewrite (clearRef_single H), mount_state.
  repeat split; reflexivity.
Qed.

(* ================================================================= *)
(** * The overlay of the avatar *)

Section Overlay.

Variable gazeSpriteWidth : Q.

Lemma faceProps_callback (pupil : num * num) :
  gazeCallback (faceProps gazeSpriteWidth) pupil
  = [if isCentered pupil then OnCenter else OnLooking].
Proof. unfold gazeCallback. now destruct (isCentered pupil). Qed.

(** The overlay is visible only while the pupil is off-centre and one timer
    is pending. *)
Lemma avatarDispatch_fade (a : AvatarState) (e : Event) :
  singleTimer (face a) ->
  (isLooking a = true ->
   isCentered (currentPupil (face a)) = false /\ pending (face a) <> []) ->
  isLooking (avatarDispatch gazeSpriteWidth a e) = true ->
  isCentered (currentPupil (face (avatarDispatch gazeSpriteWidth a e))) = false /\
  pending (face (avatarDispatch gazeSpriteWidth a e)) <> [].
Proof.
  intros H V. unfold avatarDispatch.
  assert (Move : forall x y,
    isLooking (let '(s, l) := dispatch (faceProps gazeSpriteWidth) (face a)
                                (MouseMove x y) in
               mkAvatar (fold_left setIsLooking l (isLooking a)) s) = true ->
    isCentered (currentPupil (face
      (let '(s, l) := dispatch (faceProps gazeSpriteWidth) (face a)
                        (MouseMove x y) in
       mkAvatar (fold_left setIsLooking l (isLooking a)) s))) = false /\
    pending (face
      (let '(s, l) := dispatch (faceProps gazeSpriteWidth) (face a)
                        (MouseMove x y) in
       mkAvatar (fold_left setIsLooking l (isLooking a)) s)) <> []).
  { intros x y. destruct (containerRef (face a)) as [rect|] eqn:C.
    - rewrite (dispatch_MouseMove_attached _ (face a) x y C).
      rewrite faceProps_callback.
      cbn [fold_left isLooking face currentPupil pending].
      destruct (isCentered (pupilOf (faceProps gazeSpriteWidth) rect x y));
        cbn [setIsLooking]; [discriminate|].
      intros _. split; [reflexivity|discriminate].
    - rewrite (dispatch_MouseMove_detached _ (face a) x y C).
      cbn [fold_left isLooking face]. exact V. }
  destruct e as [x y|[|[x y] rest]| |id|c].
  - apply Move.
  - rewrite dispatch_TouchMove_nil. cbn [fold_left isLooking face]. exact V.
  - rewrite dispatch_TouchMove_cons. apply Move.
  - rewrite dispatch_TouchEnd.
    cbn [fold_left isLooking face currentPupil pending].
    intro L. split; [exact (proj1 (V L))|discriminate].
  - destruct (in_dec Nat.eq_dec id (pending (face a))) as [I|N].
    + rewrite (dispatch_TimerFire_pending _ (face a) id I).
      cbn [optList onCenter faceProps defaults fold_left isLooking setIsLooking].
      discriminate.
    + rewrite (dispatch_TimerFire_expired _ (face a) id N).
      cbn [fold_left isLooking face]. exact V.
  - rewrite dispatch_Layout.
    cbn [fold_left isLooking face currentPupil pending]. exact V.
Qed.

Lemma avatarDispatch_face (a : AvatarState) (e : Event) :
  face (avatarDispatch gazeSpriteWidth a e)
  = fst (dispatch (faceProps gazeSpriteWidth) (face a) e).
Proof.
  unfold avatarDispatch.
  now destruct (dispatch (faceProps gazeSpriteWidth) (face a) e).
Qed.

Lemma avatarRun_fade (es : list Event) (a : AvatarState) :
  singleTimer (face a) -> timersBelowNext (face a) ->
  (isLooking a = true ->
   isCentered (currentPupil (face a)) = false /\ pending (face a) <> []) ->
  singleTimer (face (avatarRun gazeSpriteWidth a es)) /\
  (isLooking (avatarRun gazeSpriteWidth a es) = true ->
   isCentered (currentPupil (face (avatarRun gazeSpriteWidth a es))) = false /\
   pending (face (avatarRun gazeSpriteWidth a es)) <> []).
Proof.
  revert a. induction es as [|e es IH]; intros a H B V; [now split|].
  unfold avatarRun. cbn [fold_left]. fold (avatarRun gazeSpriteWidth).
  destruct (dispatch_single (faceProps gazeSpriteWidth) e H B) as [H' B'].
  rewrite <- avatarDispatch_face in H', B'.
  apply IH; auto. now apply avatarDispatch_fade.
Qed.

End Overlay.

(** X10: the overlay of the avatar starts hidden, and in every state reached
    afterwards in which it is visible, the stored pupil is off-centre and
    exactly one idle timer is pending, the one [idleTimerRef] names; when
    that timer fires the overlay is hidden again. *)
Theorem visible_overlay_has_a_fade_pending
  (gazeSpriteWidth : Q) (c : option Rect) (es : list Event) :
  opacity (avatarRun gazeSpriteWidth (avatarMount gazeSpriteWidth c) es) = 1%Z ->
  let a := avatarRun gazeSpriteWidth (avatarMount gazeSpriteWidth c) es in
  opacity (avatarMount gazeSpriteWidth c) = 0%Z /\
  isCentered (currentPupil (face a)) = false /\
  exists id,
    pending (face a) = [id] /\ idleTimerRef (face a) = Some id /\
    opacity (avatarDispatch gazeSpriteWidth a (TimerFire id)) = 0%Z.
Proof.
  intro O. cbv zeta.
  assert (M : avatarMount gazeSpriteWidth c
              = mkAvatar false (fst (mount (faceProps gazeSpriteWidth) c))).
  { unfold avatarMount. now rewrite mount_state. }
  destruct (mount_single (faceProps gazeSpriteWidth) c) as [H0 B0].
  rewrite M in *.
  destruct (@avatarRun_fade gazeSpriteWidth es
              (mkAvatar false (fst (mount (faceProps gazeSpriteWidth) c)))
              H0 B0) as [H V]; [discriminate|].
  remember (avatarRun gazeSpriteWidth
              (mkAvatar false (fst (mount (faceProps gazeSpriteWidth) c))) es)
    as a eqn:Ea. clear Ea.
  assert (L : isLooking a = true).
  { unfold opacity in O. destruct (isLooking a); [reflexivity|discriminate]. }
  destruct (V L) as [Vc Vp].
  split; [reflexivity|]. split; [exact Vc|].
  destruct H as [E|(id & E & R)]; [contradiction|].
  exists id. split; [exact E|]. split; [exact R|].
  unfold avatarDispatch.
  rewrite (@dispatch_TimerFire_pending (faceProps gazeSpriteWidth) (face a) id)
    by (rewrite E; now left).
  reflexivity.
Qed.

Lemma visible_overlay_has_a_fade_pending_witness :
  let a := avatarRun 1100 (avatarMount 1100 (Some (mkRect 0 0 100 100)))
             [MouseMove (Fin 100) (Fin 0); TouchEnd] in
  isCentered (currentPupil (face a)) = false /\
  exists id,
    pending (face a) = [id] /\ idleTimerRef (face a) = Some id /\
    opacity (avatarDispatch 1100 a (TimerFire id)) = 0%Z.
Proof.
  cbv zeta.
  refine (proj2 (@visible_overlay_has_a_fade_pending 1100
            (Some (mkRect 0 0 100 100))
            [MouseMove (Fin 100) (Fin 0); TouchEnd] _)).
  reflexivity.
Defined.

(* ================================================================= *)
(** * Further properties of the obfuscation *)

Section Obfuscated.

Local Open Scope Z_scope.

(** X12: [rot13] is its own inverse on every string; it keeps the length,
    leaves every code unit that is not an ASCII letter as it is, and replaces
    every ASCII letter by a different letter of the same case. *)
Theorem rot13_swaps_letters (str : jsstring) :
  rot13 (rot13 str) = str /\
  length (rot13 str) = length str /\
  Forall2 (fun c d =>
             (isUpper c -> isUpper d /\ d <> c) /\
             (isLower c -> isLower d /\ d <> c) /\
             (~ isUpper c -> ~ isLower c -> d = c))
          str (rot13 str).
Proof.
  split; [apply rot13_involutive|]. split; [apply length_map|].
  induction str as [|c str IH]; [constructor|].
  cbn [rot13 map]. constructor; [|exact IH].
  unfold isUpper, isLower.
  destruct (rot13_char_cases c) as [[H ->]|[[H ->]|[[H ->]|[[H ->]|[H ->]]]]];
    repeat split; intros; lia.
Qed.

Lemma lxor_codeUnit (a b : Z) :
  isCodeUnit a -> isCodeUnit b -> isCodeUnit (Z.lxor a b).
Proof.
  unfold isCodeUnit. intros Ha Hb.
  assert (N : 0 <= Z.lxor a b) by (apply Z.lxor_nonneg; lia).
  split; [exact N|].
  destruct (Z.eq_dec (Z.lxor a b) 0) as [->|Z0]; [lia|].
  assert (L : Z.lxor a b < 2 ^ 16); [|lia].
  apply Z.log2_lt_pow2; [lia|].
  pose proof (Z.log2_lxor a b (proj1 Ha) (proj1 Hb)) as M.
  assert (La : Z.log2 a < 16).
  { destruct (Z.eq_dec a 0) as [->|]; [cbn; lia|].
    apply Z.log2_lt_pow2; lia. }
  assert (Lb : Z.log2 b < 16).
  { destruct (Z.eq_dec b 0) as [->|]; [cbn; lia|].
    apply Z.log2_lt_pow2; lia. }
  lia.
Qed.

Lemma toInt32_codeUnit (c : Z) : isCodeUnit c -> toInt32 (Some c) = c.
Proof. unfold isCodeUnit, toInt32. intro H. zlia. Qed.

Lemma fromCharCode_codeUnit (c : Z) : isCodeUnit c -> fromCharCode c = c.
Proof. unfold isCodeUnit, fromCharCode. intro H. zlia. Qed.

Lemma key_char_codeUnit (key : jsstring) (i : Z) :
  Forall isCodeUnit key ->
  isCodeUnit (toInt32 (charCodeAt key (keyIndex i (Zlength key)))).
Proof.
  intro K. unfold charCodeAt.
  destruct (keyIndex i (Zlength key) <? 0); [cbn; unfold isCodeUnit; lia|].
  destruct (nth_error key (Z.to_nat (keyIndex i (Zlength key)))) as [k|] eqn:E.
  - apply nth_error_In in E. rewrite Forall_forall in K.
    rewrite toInt32_codeUnit; now apply K.
  - cbn. unfold isCodeUnit. lia.
Qed.

Lemma xorLoop_codeUnits (key text : jsstring) (i : Z) :
  Forall isCodeUnit key -> Forall isCodeUnit text ->
  Forall isCodeUnit (xorLoop key i text).
Proof.
  intros K T. revert i. induction T as [|ch rest Hc _ IH]; intro i.
  - constructor.
  - cbn [xorLoop]. constructor; [|apply IH].
    unfold bitxor. rewrite (toInt32_codeUnit Hc).
    pose proof (lxor_codeUnit Hc (key_char_codeUnit i K)) as X.
    now rewrite (fromCharCode_codeUnit X).
Qed.

(** X13: on strings of UTF-16 code units the XOR loop is its own inverse for
    every key, keeps the length and yields code units again; with the empty
    key it changes nothing. *)
Theorem xorLoop_is_an_involution (key text : jsstring) (i : Z) :
  Forall isCodeUnit key -> Forall isCodeUnit text ->
  xorLoop key i (xorLoop key i text) = text /\
  length (xorLoop key i text) = length text /\
  Forall isCodeUnit (xorLoop key i text) /\
  xorLoop [] i text = text.
Proof.
  intros K T.
  split; [|split; [|split; [now apply xorLoop_codeUnits|]]].
  - revert i. induction T as [|ch rest Hc _ IH]; intro i; [reflexivity|].
    cbn [xorLoop]. unfold bitxor. rewrite (toInt32_codeUnit Hc).
    pose proof (key_char_codeUnit i K) as Hk.
    pose proof (lxor_codeUnit Hc Hk) as X.
    rewrite (fromCharCode_codeUnit X), (toInt32_codeUnit X).
    rewrite Z.lxor_assoc, Z.lxor_nilpotent, Z.lxor_0_r.
    rewrite (fromCharCode_codeUnit Hc). f_equal. apply IH.
  - clear K T. revert i. induction text as [|ch rest IH]; intro i;
      [reflexivity|]. cbn [xorLoop length]. now rewrite IH.
  - clear K. revert i. induction T as [|ch rest Hc _ IH]; intro i;
      [reflexivity|].
    cbn [xorLoop].
    change (charCodeAt [] (keyIndex i (Zlength []))) with (@None Z).
    unfold bitxor. change (toInt32 None) with 0.
    rewrite (toInt32_codeUnit Hc), Z.lxor_0_r, (fromCharCode_codeUnit Hc).
    f_equal. apply IH.
Qed.

Lemma xorLoop_is_an_involution_witness :
  let key := [8364; 65] in
  let text := [106; 97; 8482; 111; 98] in
  xorLoop key 0 (xorLoop key 0 text) = text.
Proof.
  cbv zeta.
  refine (proj1 (@xorLoop_is_an_involution [8364; 65]
                   [106; 97; 8482; 111; 98] 0 _ _)).
  - repeat constructor; unfold isCodeUnit; lia.
  - repeat constructor; unfold isCodeUnit; lia.
Defined.

Lemma land_lxor_distr (a b c : Z) :
  Z.land (Z.lxor a b) c = Z.lxor (Z.land a c) (Z.land b c).
Proof.
  apply Z.bits_inj'. intros n _.
  rewrite !Z.land_spec, !Z.lxor_spec, !Z.land_spec.
  destruct (Z.testbit a n), (Z.testbit b n), (Z.testbit c n); reflexivity.
Qed.

(** Only the low byte of a code unit survives [Buffer.from(..., 'binary')],
    also after the XOR with a byte. *)
Lemma latin1_xorLoop (key text : jsstring) (i : Z) :
  Forall isByte key -> Forall isCodeUnit text ->
  latin1 (xorLoop key i text) = latin1 (xorLoop key i (latin1 text)).
Proof.
  intros K T. revert i. induction T as [|ch rest Hc _ IH]; intro i.
  - reflexivity.
  - cbn [xorLoop latin1 map]. f_equal; [|apply IH].
    unfold bitxor.
    pose proof (key_char_byte i K) as Hk.
    pose proof (land_255_isByte ch) as Hb.
    assert (Kc : isCodeUnit (toInt32 (charCodeAt key (keyIndex i (Zlength key)))))
      by (unfold isByte, isCodeUnit in *; lia).
    rewrite (toInt32_codeUnit Hc), (toInt32_byte Hb).
    rewrite (fromCharCode_codeUnit (lxor_codeUnit Hc Kc)).
    assert (Xb : isByte (Z.lxor (Z.land ch 255)
                   (toInt32 (charCodeAt key (keyIndex i (Zlength key))))))
      by now apply lxor_byte.
    assert (Xc : isCodeUnit (Z.lxor (Z.land ch 255)
                   (toInt32 (charCodeAt key (keyIndex i (Zlength key))))))
      by (unfold isByte, isCodeUnit in *; lia).
    rewrite (fromCharCode_codeUnit Xc), (land_255_byte Xb).
    rewrite land_lxor_distr, (land_255_byte Hk). reflexivity.
Qed.

(** X14: for every key of bytes and every e-mail string of UTF-16 code
    units, decrypting the generator's output gives the e-mail string with
    every code unit reduced to its low byte: the string itself when it is
    Latin-1, and a different string as soon as one code unit is above 255. *)
Theorem decrypt_gives_low_bytes (email key : jsstring) :
  Forall isCodeUnit email -> Forall isByte key ->
  decrypted (fst (obfuscate email key)) (snd (obfuscate email key))
  = Some (map (fun c => c mod 256) email) /\
  (decrypted (fst (obfuscate email key)) (snd (obfuscate email key))
   = Some email <-> Forall isByte email).
Proof.
  intros He Hk.
  assert (D : decrypted (fst (obfuscate email key)) (snd (obfuscate email key))
              = Some (latin1 email)).
  { unfold obfuscate, decrypted. cbn [fst snd].
    rewrite rot13_involutive, (atob_toBase64 (latin1_bytes _)).
    rewrite (latin1_xorLoop 0 Hk He).
    now rewrite (xorLoop_inverts 0 Hk (latin1_bytes email)). }
  assert (L : latin1 email = map (fun c => c mod 256) email).
  { unfold latin1. apply map_ext. intro c. apply land_255_mod. }
  rewrite D, L. split; [reflexivity|].
  split.
  - intro E. injection E as E. clear D L He.
    induction email as [|c rest IH]; [constructor|].
    cbn [map] in E. injection E as Ec Er.
    constructor; [unfold isByte; zlia|now apply IH].
  - intro B.
    assert (I : map (fun c => c mod 256) email = email).
    { clear D L He. induction B as [|c rest Hc _ IH]; [reflexivity|].
      cbn [map]. rewrite IH. f_equal. unfold isByte in Hc. zlia. }
    now rewrite I.
Qed.

Lemma decrypt_gives_low_bytes_witness :
  decrypted (fst (obfuscate [8364; 64; 120] [65; 0; 255]))
            (snd (obfuscate [8364; 64; 120] [65; 0; 255]))
  = Some (map (fun c => c mod 256) [8364; 64; 120]).
Proof.
  refine (proj1 (@decrypt_gives_low_bytes [8364; 64; 120] [65; 0; 255] _ _)).
  - repeat constructor; unfold isCodeUnit; lia.
  - repeat constructor; unfold isByte; lia.
Defined.

End Obfuscated.
